(** * Huffman.py: a shallow embedding and its verified properties

    The development follows [src/Huffman.py] (Python 2).  The class
    [Huffman] becomes a record that is passed explicitly; each method
    becomes a function of that record.  A Python 2 [str] is a sequence
    of 8-bit characters and is modelled by [string]; the symbols of the
    data are its characters ([ascii]).  The instance dictionary is a
    finite map from symbols to bit patterns.  Exceptions are values of
    the type [result]. *)

From Stdlib Require Import ZArith Ascii String Floats Lia.
From stdpp Require Import gmap strings list fin_maps sorting.
From Equations Require Import Equations.

Open Scope string_scope.
Open Scope list_scope.
Open Scope Z_scope.

(** ** Python values *)

(** The exceptions that the program can raise: [Exception(msg)] from its
    own [raise] statements, [IndexError] from [heappop] or an index on
    an empty list. *)
Inductive exception :=
| Exception (msg : string)
| IndexError (msg : string).

Inductive result (A : Type) :=
| Ok (a : A)
| Raise (e : exception).
Arguments Ok {A} a.
Arguments Raise {A} e.

(** [len(s)] on a [str]. *)
Definition len (s : string) : Z := Z.of_nat (String.length s).

(** A message in which [word] stands between double quotes. *)
Definition quoted (before word after : string) : string :=
  before +:+ String "034" word +:+ String "034" after.

(** [for k, v in kvs: m[k] = v]: a dictionary filled by a loop of
    assignments, a later one replacing an earlier one for the same key. *)
Definition assign_all `{Countable K} {V : Type}
    (m : gmap K V) (kvs : list (K * V)) : gmap K V :=
  foldl (fun acc kv => <[kv.1 := kv.2]> acc) m kvs.

(** [float(n)] on an integer: the binary64 number nearest to [n]. *)
Definition float_of_int (n : Z) : float :=
  SF2Prim (binary_normalize prec emax n 0 false).

(** ** Tree nodes

    The source builds its tree from tuples: a leaf is the pair
    [(weight, symbol)] made by [__create_frequency], an inner node is the
    triple [(weight, leftnode, rightnode)] made by [__huffman_tree]. *)
Inductive node :=
| Leaf (weight : Z) (symbol : ascii)
| Internal (weight : Z) (leftnode rightnode : node).

(** [t[0]] *)
Definition item0 (t : node) : Z :=
  match t with
  | Leaf w _ => w
  | Internal w _ _ => w
  end.

(** [len(t)] on a node tuple *)
Definition tuple_len (t : node) : Z :=
  match t with
  | Leaf _ _ => 2
  | Internal _ _ _ => 3
  end.

(** The order that [heapq] sees: Python 2 compares tuples item by item.
    Item 0 is the weight.  Item 1 is a [str] in a leaf and a tuple in an
    inner node; two [str] compare by character code, two tuples compare
    recursively, and a [str] is smaller than any tuple (Python 2 orders
    values of unrelated types by type name).  Item 2 exists only in
    inner nodes. *)
Fixpoint node_compare (a b : node) : comparison :=
  match a, b with
  | Leaf w s, Leaf w' s' =>
      match Z.compare w w' with
      | Eq => Ascii.compare s s'
      | c => c
      end
  | Leaf w _, Internal w' _ _ =>
      match Z.compare w w' with
      | Eq => Lt
      | c => c
      end
  | Internal w _ _, Leaf w' _ =>
      match Z.compare w w' with
      | Eq => Gt
      | c => c
      end
  | Internal w l r, Internal w' l' r' =>
      match Z.compare w w' with
      | Eq =>
          match node_compare l l' with
          | Eq => node_compare r r'
          | c => c
          end
      | c => c
      end
  end.

(** [a < b] *)
Definition node_lt (a b : node) : bool :=
  match node_compare a b with
  | Lt => true
  | _ => false
  end.

(** ** The priority queue

    [heapq] belongs to Python's standard library, not to this
    repository.  It is modelled by its contract: [heappop] removes and
    returns the smallest item.  A heap is represented by the sequence of
    its items in the order in which [heappop] delivers them. *)
Fixpoint heappush (heap : list node) (item : node) : list node :=
  match heap with
  | [] => [item]
  | x :: heap' =>
      if node_lt item x then item :: x :: heap'
      else x :: heappush heap' item
  end.

Definition heapify (x : list node) : list node :=
  foldr (fun item heap => heappush heap item) [] x.

Definition heappop (heap : list node) : result (node * list node) :=
  match heap with
  | [] => Raise (IndexError "index out of range")
  | x :: heap' => Ok (x, heap')
  end.

(** ** The class [Huffman] *)

Record Huffman := {
  data : string;
  dictionary : gmap ascii string
}.

(** [Huffman(data)]; [None] stands for Python's [None]. *)
Definition __init__ (data : option string) : result Huffman :=
  match data with
  | None => Raise (Exception "Invalid data.")
  | Some data =>
      if decide (len data = 0) then Raise (Exception "Invalid data.")
      else Ok {| data := data; dictionary := ∅ |}
  end.

Definition get_dictionary (self : Huffman) : gmap ascii string :=
  dictionary self.

Definition set_dictionary (self : Huffman) (value : gmap ascii string) : Huffman :=
  {| data := data self; dictionary := value |}.

(** [{v: k for k, v in self.get_dictionary().items()}]: the items are
    visited in the dictionary's order and a later item replaces an
    earlier one with the same bit pattern.  The order is that of the
    map, not the hash order of a CPython dictionary: when two symbols
    share a code word, which of them the reversed table keeps is not
    taken from the source, and no theorem below depends on it. *)
Definition get_reversed_dictionary (self : Huffman) : gmap string ascii :=
  assign_all ∅ ((fun kv => (kv.2, kv.1)) <$> map_to_list (get_dictionary self)).

(** [Counter(data)] *)
Fixpoint Counter_update (counts : gmap ascii Z) (data : string) : gmap ascii Z :=
  match data with
  | EmptyString => counts
  | String c rest =>
      Counter_update (<[c := default 0 (counts !! c) + 1]> counts) rest
  end.

Definition Counter (data : string) : gmap ascii Z := Counter_update ∅ data.

Definition __create_frequency (self : Huffman) : list node :=
  let frequencylist := map_to_list (Counter (data self)) in
  (fun kv => Leaf kv.2 kv.1) <$> frequencylist.

(** One round of the [while] loop of [__huffman_tree]. *)
Definition merge_round (frequency : list node) : result (list node) :=
  match heappop frequency with
  | Raise e => Raise e
  | Ok (leftnode, frequency) =>
      match heappop frequency with
      | Raise e => Raise e
      | Ok (rightnode, frequency) =>
          let parentnode :=
            Internal (item0 leftnode + item0 rightnode) leftnode rightnode in
          Ok (heappush frequency parentnode)
      end
  end.

Definition inspect {A : Type} (a : A) : {b : A | a = b} := exist _ a eq_refl.

(** [while len(frequency) > 1: ...] *)
Equations? merge_loop (frequency : list node) : result (list node)
  by wf (length frequency) lt :=
  merge_loop frequency with decide (1 < length frequency)%nat => {
    | right _ := Ok frequency
    | left Hgt with inspect (merge_round frequency) => {
        | exist _ (Raise e) _ := Raise e
        | exist _ (Ok frequency') Hround := merge_loop frequency'
      }
  }.
Proof.
  destruct frequency as [|a [|b rest]]; simpl in *; try lia.
  injection Hround as <-.
  assert (Hlen : forall h x, length (heappush h x) = S (length h)).
  { induction h as [|y h IH]; intros x; simpl; [done|].
    destruct (node_lt x y); simpl; [done|]. by rewrite IH. }
  rewrite Hlen. lia.
Qed.

Definition __huffman_tree (frequency : list node) : result node :=
  if decide (length frequency = 0%nat) then
    Raise (Exception "Invalid frequency table.")
  else
    match merge_loop (heapify frequency) with
    | Raise e => Raise e
    | Ok [] => Raise (IndexError "list index out of range")
    | Ok (root :: _) => Ok root
    end.

(** The work list of [__huffman_code]: [stack.append] puts an entry in
    front, [stack.pop()] takes the front entry. *)
Fixpoint node_size (t : node) : nat :=
  match t with
  | Leaf _ _ => 1
  | Internal _ l r => S (node_size l + node_size r)
  end.

Definition stack_size (stack : list (node * string)) : nat :=
  foldr (fun ptr n => (node_size ptr.1 + n)%nat) 0%nat stack.

(** [while len(stack) > 0: ...] *)
Equations? code_loop (stack : list (node * string))
    (dictionary : gmap ascii string) : gmap ascii string
  by wf (stack_size stack) lt :=
  code_loop [] dictionary := dictionary;
  code_loop ((Leaf _ symbol, prefix) :: stack) dictionary :=
    code_loop stack (<[symbol := prefix]> dictionary);
  code_loop ((Internal _ leftnode rightnode, prefix) :: stack) dictionary :=
    code_loop ((rightnode, prefix +:+ "1") :: (leftnode, prefix +:+ "0") :: stack)
              dictionary.
Proof. all: unfold stack_size; simpl; lia. Qed.

Definition __huffman_code (self : Huffman) (tree : node) : Huffman :=
  let prefix := if decide (tuple_len tree = 2) then "1" else EmptyString in
  {| data := data self;
     dictionary := code_loop [(tree, prefix)] (dictionary self) |}.

(** [for c in self.data: ...] *)
Fixpoint encode_loop (dictionary : gmap ascii string) (data value : string)
    : result string :=
  match data with
  | EmptyString => Ok value
  | String c rest =>
      match dictionary !! c with
      | Some code => encode_loop dictionary rest (value +:+ code)
      | None => Raise (Exception "Invalid huffman key.")
      end
  end.

Definition __encode (self : Huffman) : result string :=
  if decide (size (dictionary self) = 0%nat) then
    Raise (Exception "Huffman encoding table has not been created.")
  else encode_loop (dictionary self) (data self) EmptyString.

(** [encode_huffman] changes the instance: the result is the instance
    after the call together with the returned value or the exception. *)
Definition encode_huffman (self : Huffman) : Huffman * result string :=
  let freqmap := __create_frequency self in
  match __huffman_tree freqmap with
  | Raise e => (self, Raise e)
  | Ok root =>
      let self := __huffman_code self root in
      (self, __encode self)
  end.

(** [for bit in encodedvalue: ...]; the result is the pair of
    [bitPattern] and [decodedvalue] when the loop ends. *)
Fixpoint decode_loop (reverseddictionary : gmap string ascii)
    (encodedvalue bitPattern decodedvalue : string) : string * string :=
  match encodedvalue with
  | EmptyString => (bitPattern, decodedvalue)
  | String bit rest =>
      let bitPattern := bitPattern +:+ String bit EmptyString in
      match reverseddictionary !! bitPattern with
      | Some symbol =>
          let decodedvalue := decodedvalue +:+ String symbol EmptyString in
          decode_loop reverseddictionary rest EmptyString decodedvalue
      | None => decode_loop reverseddictionary rest bitPattern decodedvalue
      end
  end.

Definition decode_huffman (self : Huffman) (encodedvalue : option string)
    : result string :=
  match encodedvalue with
  | None => Raise (Exception "Invalid encoded value.")
  | Some encodedvalue =>
      if decide (len encodedvalue = 0) then
        Raise (Exception "Invalid encoded value.")
      else
        let reverseddictionary := get_reversed_dictionary self in
        Ok (decode_loop reverseddictionary encodedvalue EmptyString EmptyString).2
  end.

Definition get_compression_ratio (self : Huffman) (encodedValue : option string)
    : result float :=
  match encodedValue with
  | None => Raise (Exception (quoted "Invalid argument " "encodedValue" "."))
  | Some encodedValue =>
      if decide (len encodedValue = 0) then
        Raise (Exception (quoted "Invalid argument " "encodedValue" "."))
      else if decide (len (data self) = 0) then
        Raise (Exception (quoted "Invalid member " "data" "."))
      else
        Ok (1 - float_of_int (len encodedValue)
                / float_of_int (len (data self) * 8))%float
  end.

(** The alphabet among the test data of the source. *)
Definition test_data_2 : string := "abcdefghijklmnopqrstuvwxyz".

(** ** Notions used in the statements *)

(** [data.count(c)] *)
Fixpoint str_count (c : ascii) (data : string) : Z :=
  match data with
  | EmptyString => 0
  | String x rest => (if decide (x = c) then 1 else 0) + str_count c rest
  end.

(** [c in data] *)
Definition occurs (c : ascii) (data : string) : Prop :=
  c ∈ list_ascii_of_string data.

(** [s * n] on a one-character string *)
Fixpoint repeat_char (c : ascii) (n : nat) : string :=
  match n with
  | O => EmptyString
  | S n' => String c (repeat_char c n')
  end.

(** The symbols of the data, each listed once. *)
Definition distinct_symbols (data : string) : list ascii :=
  remove_dups (list_ascii_of_string data).

(** The sum of [g k] over the symbols [k] of a list. *)
Definition sum_over (g : ascii -> Z) (l : list ascii) : Z :=
  foldr (fun k acc => g k + acc) 0 l.

(** The sum, over the symbols of a list, of the number of occurrences of
    the symbol in the data times the length of its code word in the
    table.  There is no such sum when a symbol of the list has no code
    word in the table. *)
Fixpoint weighted_sum (data : string) (table : gmap ascii string)
    (l : list ascii) : option Z :=
  match l with
  | [] => Some 0
  | k :: l' =>
      match table !! k, weighted_sum data table l' with
      | Some c, Some rest => Some (str_count k data * len c + rest)
      | _, _ => None
      end
  end.

(** That sum over the distinct symbols of the data. *)
Definition weighted_length (data : string) (table : gmap ascii string)
    : option Z :=
  weighted_sum data table (distinct_symbols data).

(** [p] is a prefix of [s] *)
Definition is_prefix (p s : string) : Prop := exists k, s = p +:+ k.

(** No code word of the table is a prefix of the code word of another
    symbol. *)
Definition prefix_free (table : gmap ascii string) : Prop :=
  forall k1 k2 c1 c2,
    table !! k1 = Some c1 -> table !! k2 = Some c2 -> k1 <> k2 ->
    ~ is_prefix c1 c2.

(** The symbols at the leaves of a tree, and the code word that the
    traversal of [__huffman_code] gives each of them, in the order in
    which the work list reaches them (right subtree first). *)
Fixpoint leaves (t : node) : list ascii :=
  match t with
  | Leaf _ symbol => [symbol]
  | Internal _ l r => leaves r ++ leaves l
  end.

Fixpoint codes (t : node) (prefix : string) : list (ascii * string) :=
  match t with
  | Leaf _ symbol => [(symbol, prefix)]
  | Internal _ l r => codes r (prefix +:+ "1") ++ codes l (prefix +:+ "0")
  end.

(** The symbols at the leaves of the nodes of a list. *)
Definition forest_leaves (h : list node) : list ascii := h ≫= leaves.

(** The code words that the traversal is still to assign, given its
    work list. *)
Definition stack_codes (stack : list (node * string)) : list (ascii * string) :=
  stack ≫= (fun ptr => codes ptr.1 ptr.2).

(** [not (b < a)] *)
Definition node_le (a b : node) : Prop := node_lt b a = false.

(** The prefix with which [__huffman_code] starts its traversal. *)
Definition root_prefix (tree : node) : string :=
  if decide (tuple_len tree = 2) then "1" else EmptyString.

(** The concatenation of the code words of the symbols of [data]. *)
Fixpoint code_words (table : gmap ascii string) (data : string) : string :=
  match data with
  | EmptyString => EmptyString
  | String c rest => default EmptyString (table !! c) +:+ code_words table rest
  end.

(** The lengths of the code words of a table. *)
Definition code_lengths (table : gmap ascii string) : list Z :=
  (fun kv => len kv.2) <$> map_to_list table.

(** The bit buffer that [decode_huffman] holds when its loop ends, and
    the symbols it has emitted by then. *)
Definition unmatched (self : Huffman) (encodedvalue : string) : string :=
  (decode_loop (get_reversed_dictionary self) encodedvalue EmptyString EmptyString).1.

Definition decoded (self : Huffman) (encodedvalue : string) : string :=
  (decode_loop (get_reversed_dictionary self) encodedvalue EmptyString EmptyString).2.

(** The instance after [encode_huffman] on the alphabet, and the stream
    that the call returns. *)
Definition alphabet_codec : Huffman :=
  (encode_huffman {| data := test_data_2; dictionary := ∅ |}).1.

Definition alphabet_encoded : string :=
  code_words (get_dictionary alphabet_codec) test_data_2.

(** The instance after [encode_huffman] on the data [abc]: its table is
    [c -> 0], [a -> 10], [b -> 11]. *)
Definition abc_codec : Huffman :=
  (encode_huffman {| data := "abc"; dictionary := ∅ |}).1.

(** A string of the characters [0] and [1]. *)
Definition is_bits (s : string) : Prop :=
  Forall (fun x => x = "0"%char \/ x = "1"%char) (list_ascii_of_string s).

(** The [(weight, symbol)] pairs at the leaves of a tree. *)
Fixpoint leaf_items (t : node) : list (Z * ascii) :=
  match t with
  | Leaf w symbol => [(w, symbol)]
  | Internal _ l r => leaf_items l ++ leaf_items r
  end.

(** The node reached from [t] along the bits of [path]: [0] leads to
    the left child and [1] to the right one. *)
Fixpoint descend (t : node) (path : string) {struct path} : option node :=
  match path with
  | EmptyString => Some t
  | String x rest =>
      match t with
      | Leaf _ _ => None
      | Internal _ l r =>
          if decide (x = "0"%char) then descend l rest
          else if decide (x = "1"%char) then descend r rest
          else None
      end
  end.

(** The [(weight, symbol)] pairs at the leaves of the nodes of a list. *)
Definition forest_items (h : list node) : list (Z * ascii) := h ≫= leaf_items.

(** The sum of the numbers of a list. *)
Definition sum_weights (l : list Z) : Z := foldr Z.add 0 l.

(** Every inner node carries the sum of the weights of its two
    children. *)
Fixpoint well_weighted (t : node) : Prop :=
  match t with
  | Leaf _ _ => True
  | Internal w l r => w = item0 l + item0 r /\ well_weighted l /\ well_weighted r
  end.

(** ** Strings *)

Section strings.
Implicit Types s t u : string.

Lemma str_app_empty_l s : EmptyString +:+ s = s.
Proof. reflexivity. Qed.

Lemma str_app_cons a s t : String a s +:+ t = String a (s +:+ t).
Proof. reflexivity. Qed.

Lemma str_app_empty_r s : s +:+ EmptyString = s.
Proof. induction s as [|a s IH]; [done|]. by rewrite str_app_cons, IH. Qed.

Lemma str_app_assoc s t u : (s +:+ t) +:+ u = s +:+ (t +:+ u).
Proof. induction s as [|a s IH]; [done|]. by rewrite !str_app_cons, IH. Qed.

Lemma str_length_app s t :
  String.length (s +:+ t) = (String.length s + String.length t)%nat.
Proof. induction s as [|a s IH]; [done|]. rewrite str_app_cons. simpl. by rewrite IH. Qed.

Lemma len_app s t : len (s +:+ t) = len s + len t.
Proof. unfold len. rewrite str_length_app. lia. Qed.

Lemma len_nonneg s : 0 <= len s.
Proof. unfold len. lia. Qed.

Lemma len_zero s : len s = 0 <-> s = EmptyString.
Proof. unfold len. destruct s; simpl; split; intros; (done || lia). Qed.

Lemma str_app_eq_empty s t : s +:+ t = EmptyString -> s = EmptyString /\ t = EmptyString.
Proof. destruct s; [done|]. by rewrite str_app_cons. Qed.

Lemma str_app_inv_empty_r s t : s = s +:+ t -> t = EmptyString.
Proof.
  intros H. apply (f_equal String.length) in H.
  rewrite str_length_app in H. destruct t; [done|]. simpl in H. lia.
Qed.

Lemma is_prefix_refl s : is_prefix s s.
Proof. exists EmptyString. by rewrite str_app_empty_r. Qed.

Lemma is_prefix_app s t : is_prefix s (s +:+ t).
Proof. by exists t. Qed.

Lemma is_prefix_trans s t u : is_prefix s t -> is_prefix t u -> is_prefix s u.
Proof. intros [k ->] [k' ->]. exists (k +:+ k'). by rewrite str_app_assoc. Qed.

Lemma is_prefix_length s t : is_prefix s t -> (String.length s <= String.length t)%nat.
Proof. intros [k ->]. rewrite str_length_app. lia. Qed.

(** Two extensions of one string by different characters are not
    prefixes of each other. *)
Lemma diverge s a b t u :
  a <> b ->
  ~ is_prefix ((s +:+ String a EmptyString) +:+ t) ((s +:+ String b EmptyString) +:+ u).
Proof.
  intros Hab [k Hk]. rewrite !str_app_assoc in Hk.
  apply (inj (String.app s)) in Hk. rewrite !str_app_cons in Hk. congruence.
Qed.

Lemma occurs_cons c x s : occurs c (String x s) <-> c = x \/ occurs c s.
Proof. unfold occurs. simpl. by rewrite elem_of_cons. Qed.

Lemma occurs_empty c : ~ occurs c EmptyString.
Proof. unfold occurs. simpl. by intros ?%elem_of_nil. Qed.

Lemma str_count_nonneg c s : 0 <= str_count c s.
Proof. induction s as [|x s IH]; simpl; [done|]. case_decide; lia. Qed.

Lemma str_count_pos c s : occurs c s <-> 0 < str_count c s.
Proof.
  induction s as [|x s IH]; simpl.
  - split; [by intros ?%occurs_empty | lia].
  - rewrite occurs_cons, IH. pose proof (str_count_nonneg c s).
    case_decide as Hx; [subst x|]; split.
    + lia.
    + auto.
    + intros [->|?]; [done | lia].
    + intros ?. right. lia.
Qed.
End strings.

(** ** Dictionaries filled by a loop of assignments *)

Section assignments.
Context {K V : Type} `{Countable K}.
Implicit Types (m : gmap K V) (kvs : list (K * V)).

Lemma assign_all_app m kvs kvs' :
  assign_all m (kvs ++ kvs') = assign_all (assign_all m kvs) kvs'.
Proof. apply foldl_app. Qed.

Lemma assign_all_other m kvs k :
  k ∉ kvs.*1 -> assign_all m kvs !! k = m !! k.
Proof.
  revert m. induction kvs as [|[k' v'] kvs IH]; intros m Hk; simpl; [done|].
  rewrite fmap_cons, not_elem_of_cons in Hk. destruct Hk as [Hne Hk].
  unfold assign_all in *. simpl. rewrite IH by done.
  by rewrite lookup_insert_ne.
Qed.

Lemma assign_all_elem m kvs k v :
  NoDup kvs.*1 -> (k, v) ∈ kvs -> assign_all m kvs !! k = Some v.
Proof.
  revert m. induction kvs as [|[k' v'] kvs IH]; intros m Hnd Hin; simpl.
  - by apply elem_of_nil in Hin.
  - rewrite fmap_cons in Hnd. apply NoDup_cons in Hnd as [Hfresh Hnd].
    apply elem_of_cons in Hin as [[= -> ->]|Hin].
    + fold (assign_all (<[k':=v']> m) kvs).
      rewrite assign_all_other by done. apply lookup_insert_eq.
    + by apply IH.
Qed.

Lemma assign_all_lookup m kvs k v :
  assign_all m kvs !! k = Some v -> (k, v) ∈ kvs \/ m !! k = Some v.
Proof.
  revert m. induction kvs as [|[k' v'] kvs IH]; intros m; simpl; [auto|].
  intros [Hin|Hm]%IH; [left; by right|].
  destruct (decide (k' = k)) as [->|Hne].
  - rewrite lookup_insert_eq in Hm. injection Hm as ->. left. by left.
  - rewrite lookup_insert_ne in Hm by done. by right.
Qed.

Lemma assign_all_is_Some m kvs k :
  k ∈ kvs.*1 -> is_Some (assign_all m kvs !! k).
Proof.
  revert m. induction kvs as [|[k' v'] kvs IH]; intros m; simpl.
  - by intros ?%elem_of_nil.
  - intros Hin. destruct (decide (k ∈ kvs.*1)) as [Hk|Hk]; [by apply IH|].
    apply elem_of_cons in Hin as [->|Hin]; [|done].
    fold (assign_all (<[k':=v']> m) kvs).
    rewrite assign_all_other by done. rewrite lookup_insert_eq. by eexists.
Qed.
End assignments.

(** ** The code-table traversal *)

Section traversal.
Implicit Types (t : node) (p c : string) (k : ascii).

Lemma stack_codes_cons t p stack :
  stack_codes ((t, p) :: stack) = codes t p ++ stack_codes stack.
Proof. reflexivity. Qed.

Lemma code_loop_spec stack (d : gmap ascii string) :
  code_loop stack d = assign_all d (stack_codes stack).
Proof.
  funelim (code_loop stack d); simp code_loop.
  - reflexivity.
  - rewrite stack_codes_cons. simpl.
    match goal with IH : code_loop _ _ = _ |- _ => exact IH end.
  - match goal with IH : code_loop _ _ = assign_all _ _ |- _ => rewrite IH end.
    rewrite !stack_codes_cons. simpl. by rewrite <- app_assoc.
Qed.

Lemma codes_fst t p : (codes t p).*1 = leaves t.
Proof.
  revert p. induction t as [w s|w l IHl r IHr]; intros p; simpl; [done|].
  by rewrite fmap_app, IHl, IHr.
Qed.

Lemma codes_prefix t p k c : (k, c) ∈ codes t p -> is_prefix p c.
Proof.
  revert p. induction t as [w s|w l IHl r IHr]; intros p; simpl.
  - intros [= _ ->]%list_elem_of_singleton. apply is_prefix_refl.
  - intros [Hin|Hin]%elem_of_app.
    + eapply is_prefix_trans; [apply is_prefix_app | by apply IHr].
    + eapply is_prefix_trans; [apply is_prefix_app | by apply IHl].
Qed.

(** Below an inner node every code word is strictly longer than the
    prefix the node was reached with. *)
Lemma codes_longer w l r p k c :
  (k, c) ∈ codes (Internal w l r) p ->
  (String.length p < String.length c)%nat.
Proof.
  simpl. intros [Hin|Hin]%elem_of_app;
    apply codes_prefix, is_prefix_length in Hin;
    rewrite str_length_app in Hin; simpl in Hin; lia.
Qed.

(** Two leaves of one tree never receive code words of which one is a
    prefix of the other, unless they carry the same symbol. *)
Lemma codes_prefix_free t p k1 c1 k2 c2 :
  (k1, c1) ∈ codes t p -> (k2, c2) ∈ codes t p -> k1 <> k2 ->
  ~ is_prefix c1 c2.
Proof.
  revert p. induction t as [w s|w l IHl r IHr]; intros p; simpl.
  - intros [= -> _]%list_elem_of_singleton [= -> _]%list_elem_of_singleton. done.
  - intros [H1|H1]%elem_of_app [H2|H2]%elem_of_app Hne.
    + by eapply IHr.
    + apply codes_prefix in H1 as [u1 ->]. apply codes_prefix in H2 as [u2 ->].
      by apply diverge.
    + apply codes_prefix in H1 as [u1 ->]. apply codes_prefix in H2 as [u2 ->].
      by apply diverge.
    + by eapply IHl.
Qed.
End traversal.

(** ** The priority queue and the tree *)

Section tree.
Implicit Types (h : list node) (x : node).

Lemma heappush_perm h x : heappush h x ≡ₚ x :: h.
Proof.
  induction h as [|y h IH]; simpl; [done|].
  destruct (node_lt x y); [done|]. rewrite IH. apply perm_swap.
Qed.

Lemma heapify_perm h : heapify h ≡ₚ h.
Proof.
  induction h as [|y h IH]; simpl; [done|].
  rewrite heappush_perm. by constructor.
Qed.

Lemma merge_loop_spec h :
  h <> [] ->
  exists root,
    merge_loop h = Ok [root] /\
    leaves root ≡ₚ forest_leaves h /\
    (length h = 1%nat -> h = [root]) /\
    ((1 < length h)%nat -> tuple_len root = 3).
Proof.
  funelim (merge_loop h); intros Hne.
  - (* at most one node is left *)
    destruct frequency as [|root [|? ?]]; simpl in *; [done| |lia].
    exists root. split_and!; [done| |done|lia].
    unfold forest_leaves. simpl. by rewrite app_nil_r.
  - (* one more round *)
    destruct frequency as [|a [|b rest]]; simpl in *; [lia..|].
    injection Hround as <-.
    set (parentnode := Internal (item0 a + item0 b) a b) in *.
    pose proof (heappush_perm rest parentnode) as Hperm.
    match goal with IH : _ -> exists _, _ |- _ => destruct IH as (root & Hloop & Hleaves & Hone & Hmore) end.
    { intros Hnil. rewrite Hnil in Hperm. by apply Permutation_nil_cons in Hperm. }
    exists root. split_and!; [done| |lia|].
    + rewrite Hleaves. unfold forest_leaves. rewrite Hperm. simpl.
      rewrite <- !app_assoc. apply Permutation_app_swap_app.
    + intros _. destruct rest as [|c rest].
      * simpl in Hone. specialize (Hone eq_refl). by injection Hone as <-.
      * apply Hmore. rewrite Hperm. simpl. lia.
  - (* a round cannot fail while two nodes are left *)
    destruct frequency as [|a [|b rest]]; simpl in *; [lia..|done].
Qed.

Lemma huffman_tree_spec (frequency : list node) :
  frequency <> [] ->
  exists root,
    __huffman_tree frequency = Ok root /\
    leaves root ≡ₚ forest_leaves frequency /\
    (length frequency = 1%nat -> frequency = [root]) /\
    ((1 < length frequency)%nat -> tuple_len root = 3).
Proof.
  intros Hne. unfold __huffman_tree.
  case_decide as Hlen; [by destruct frequency|].
  pose proof (heapify_perm frequency) as Hperm.
  destruct (merge_loop_spec (heapify frequency)) as (root & -> & Hleaves & Hone & Hmore).
  { intros Hnil. rewrite Hnil in Hperm. by apply Permutation_nil in Hperm. }
  exists root. split_and!; [done| | |].
  - rewrite Hleaves. unfold forest_leaves. by rewrite Hperm.
  - intros H1. rewrite <- Hone by (by rewrite Hperm).
    destruct frequency as [|x [|? ?]]; simpl in *; done.
  - intros H1. apply Hmore. by rewrite Hperm.
Qed.
End tree.

(** ** The order of the priority queue *)

Section order.
Implicit Types (a b c : node) (h : list node).

Lemma node_compare_antisym a b : node_compare b a = CompOpp (node_compare a b).
Proof.
  revert b. induction a as [w s|w l IHl r IHr]; intros [w' s'|w' l' r']; simpl;
    rewrite (Z.compare_antisym w w'); destruct (w ?= w')%Z; simpl; try done.
  - apply Ascii.compare_antisym.
  - rewrite IHl. destruct (node_compare l l'); simpl; auto.
Qed.

Lemma node_compare_eq a b : node_compare a b = Eq -> a = b.
Proof.
  revert b. induction a as [w s|w l IHl r IHr]; intros [w' s'|w' l' r']; simpl;
    destruct (Z.compare_spec w w') as [->| |]; try done.
  - by intros ->%Ascii.compare_eq_iff.
  - destruct (node_compare l l') eqn:Hl; try done.
    apply IHl in Hl as ->. by intros ->%IHr.
Qed.

Lemma node_compare_refl a : node_compare a a = Eq.
Proof.
  pose proof (node_compare_antisym a a) as H.
  destruct (node_compare a a); simpl in H; congruence.
Qed.

Lemma node_compare_trans a b c :
  node_compare a b = Lt -> node_compare b c = Lt -> node_compare a c = Lt.
Proof.
  revert b c. induction a as [w s|w l IHl r IHr];
    intros [w' s'|w' l' r'] [w'' s''|w'' l'' r'']; simpl;
    destruct (Z.compare_spec w w') as [->| |];
    destruct (Z.compare_spec w' w'') as [->| |];
    try done; intros Hab Hbc;
    try (rewrite Z.compare_refl);
    try (assert (Z.compare w w'' = Lt) as -> by (apply Z.compare_lt_iff; lia));
    try done.
  - unfold Ascii.compare in *. rewrite N.compare_lt_iff in *. lia.
  - destruct (node_compare l l') eqn:Hl; try done.
    + apply node_compare_eq in Hl as ->.
      destruct (node_compare l' l'') eqn:Hl'; try done. by eapply IHr.
    + destruct (node_compare l' l'') eqn:Hl'; try done.
      * apply node_compare_eq in Hl' as <-. by rewrite Hl.
      * by rewrite (IHl _ _ Hl Hl').
Qed.

Lemma node_lt_le a b : node_lt a b = true -> node_le a b.
Proof.
  unfold node_le, node_lt. rewrite (node_compare_antisym a b).
  by destruct (node_compare a b).
Qed.

Lemma node_le_antisym a b : node_le a b -> node_le b a -> a = b.
Proof.
  unfold node_le, node_lt. rewrite (node_compare_antisym a b).
  destruct (node_compare a b) eqn:Hab; simpl; try done.
  intros _ _. by apply node_compare_eq.
Qed.

Lemma node_le_trans a b c : node_le a b -> node_le b c -> node_le a c.
Proof.
  unfold node_le, node_lt. intros Hab Hbc.
  destruct (node_compare c a) eqn:Hca; try done. exfalso.
  destruct (node_compare a b) eqn:Hab'.
  - apply node_compare_eq in Hab' as ->. by rewrite Hca in Hbc.
  - by rewrite (node_compare_trans c a b Hca Hab') in Hbc.
  - by rewrite (node_compare_antisym a b), Hab' in Hab.
Qed.

Lemma heappush_sorted h x :
  StronglySorted node_le h -> StronglySorted node_le (heappush h x).
Proof.
  induction 1 as [|y h Hh IH Hy]; simpl.
  - repeat constructor.
  - destruct (node_lt x y) eqn:Hxy.
    + constructor; [by constructor|]. constructor; [by apply node_lt_le|].
      eapply Forall_impl; [exact Hy|]. intros z Hz.
      eapply node_le_trans; [by apply node_lt_le|done].
    + constructor; [done|]. rewrite heappush_perm. by constructor.
Qed.

Lemma heapify_sorted h : StronglySorted node_le (heapify h).
Proof.
  induction h as [|x h IH]; simpl; [constructor|]. by apply heappush_sorted.
Qed.

(** The heap holds its items in one order only, whatever the order of
    the list it was made from: which item [heappop] delivers is decided
    by the items alone. *)
Lemma heapify_order_independent h h' : h ≡ₚ h' -> heapify h = heapify h'.
Proof.
  intros Hperm.
  apply (StronglySorted_unique_strong node_le); try apply heapify_sorted.
  - intros a b _ _. apply node_le_antisym.
  - by rewrite !heapify_perm.
Qed.

(** The tree does not depend on the order in which the frequency list
    names the symbols. *)
Lemma huffman_tree_order_independent h h' :
  h ≡ₚ h' -> __huffman_tree h = __huffman_tree h'.
Proof.
  intros Hperm. unfold __huffman_tree.
  rewrite (heapify_order_independent h h' Hperm).
  by rewrite (Permutation_length Hperm).
Qed.
End order.

(** ** The frequency table *)

Section frequency.
Implicit Types (k : ascii) (counts : gmap ascii Z).

Lemma Counter_update_lookup counts (s : string) k :
  Counter_update counts s !! k =
    if decide (str_count k s = 0) then counts !! k
    else Some (default 0 (counts !! k) + str_count k s).
Proof.
  revert counts. induction s as [|x s IH]; intros counts; simpl; [done|].
  rewrite IH. pose proof (str_count_nonneg k s).
  destruct (decide (x = k)) as [->|Hne].
  - rewrite lookup_insert_eq. simpl.
    repeat case_decide; try lia; f_equal; lia.
  - rewrite lookup_insert_ne by done.
    repeat case_decide; try lia; done.
Qed.

Lemma Counter_lookup (s : string) k :
  Counter s !! k =
    if decide (str_count k s = 0) then None else Some (str_count k s).
Proof.
  unfold Counter. rewrite Counter_update_lookup, lookup_empty. simpl.
  by case_decide.
Qed.

Lemma Counter_is_Some (s : string) k : is_Some (Counter s !! k) <-> occurs k s.
Proof.
  rewrite Counter_lookup, str_count_pos. pose proof (str_count_nonneg k s).
  case_decide; split; intros Hs; try lia; try done.
Qed.

Lemma create_frequency_leaves self :
  forest_leaves (__create_frequency self) = (map_to_list (Counter (data self))).*1.
Proof.
  unfold __create_frequency, forest_leaves.
  induction (map_to_list (Counter (data self))) as [|[k v] l IH]; simpl; [done|].
  by f_equal.
Qed.

Lemma create_frequency_NoDup self : NoDup (forest_leaves (__create_frequency self)).
Proof. rewrite create_frequency_leaves. apply NoDup_fst_map_to_list. Qed.

Lemma create_frequency_elem self k :
  k ∈ forest_leaves (__create_frequency self) <-> occurs k (data self).
Proof.
  rewrite create_frequency_leaves, <- Counter_is_Some, list_elem_of_fmap.
  split.
  - intros [[k' v] [-> Hin]]. apply elem_of_map_to_list in Hin. by eexists.
  - intros [v Hv]. exists (k, v). split; [done|]. by apply elem_of_map_to_list.
Qed.

Lemma create_frequency_nonempty self :
  data self <> EmptyString -> __create_frequency self <> [].
Proof.
  intros Hne Hnil. destruct (data self) as [|x s] eqn:Hdata; [done|].
  assert (Hx : x ∈ forest_leaves (__create_frequency self)).
  { apply create_frequency_elem. rewrite Hdata. apply occurs_cons. by left. }
  rewrite Hnil in Hx. by apply elem_of_nil in Hx.
Qed.

(** The tree that [encode_huffman] builds has exactly the symbols of
    the data at its leaves, each once. *)
Lemma tree_of_data self :
  data self <> EmptyString ->
  exists root,
    __huffman_tree (__create_frequency self) = Ok root /\
    NoDup (leaves root) /\
    (forall k, k ∈ leaves root <-> occurs k (data self)).
Proof.
  intros Hne.
  destruct (huffman_tree_spec (__create_frequency self))
    as (root & Htree & Hleaves & _); [by apply create_frequency_nonempty|].
  exists root. split_and!; [done| |].
  - rewrite Hleaves. apply create_frequency_NoDup.
  - intros k. rewrite Hleaves. apply create_frequency_elem.
Qed.
End frequency.

(** ** The generated code table *)

Section table.
Implicit Types (tree : node) (k : ascii) (c : string) (m : gmap ascii string).

Lemma huffman_code_dictionary self tree :
  dictionary (__huffman_code self tree) =
    assign_all (dictionary self) (codes tree (root_prefix tree)).
Proof.
  unfold __huffman_code, root_prefix. simpl. rewrite code_loop_spec.
  unfold stack_codes. simpl. by rewrite app_nil_r.
Qed.

Lemma root_codes_nonempty tree k c :
  (k, c) ∈ codes tree (root_prefix tree) -> c <> EmptyString.
Proof.
  destruct tree as [w s|w l r]; unfold root_prefix; simpl tuple_len.
  - simpl. by intros [= _ ->]%list_elem_of_singleton.
  - case_decide; [done|]. intros Hlen%codes_longer ->. simpl in Hlen. lia.
Qed.

Lemma table_lookup_leaf m tree k c :
  NoDup (leaves tree) ->
  (k, c) ∈ codes tree (root_prefix tree) ->
  assign_all m (codes tree (root_prefix tree)) !! k = Some c.
Proof. intros Hnd. apply assign_all_elem. by rewrite codes_fst. Qed.

Lemma table_lookup_other m tree k :
  k ∉ leaves tree ->
  assign_all m (codes tree (root_prefix tree)) !! k = m !! k.
Proof. intros Hk. apply assign_all_other. by rewrite codes_fst. Qed.

Lemma table_is_Some m tree k :
  k ∈ leaves tree -> is_Some (assign_all m (codes tree (root_prefix tree)) !! k).
Proof. intros Hk. apply assign_all_is_Some. by rewrite codes_fst. Qed.

(** On a fresh instance the table holds the code words of the tree and
    nothing else. *)
Lemma fresh_table_lookup tree k c :
  NoDup (leaves tree) ->
  assign_all ∅ (codes tree (root_prefix tree)) !! k = Some c <->
  (k, c) ∈ codes tree (root_prefix tree).
Proof.
  intros Hnd. split; [|by apply table_lookup_leaf].
  intros [Hin|Hempty]%assign_all_lookup; [done|].
  by rewrite lookup_empty in Hempty.
Qed.

Lemma fresh_table_prefix_free tree :
  NoDup (leaves tree) ->
  prefix_free (assign_all ∅ (codes tree (root_prefix tree))).
Proof.
  intros Hnd k1 k2 c1 c2 H1%fresh_table_lookup H2%fresh_table_lookup Hne;
    [|done..].
  by eapply codes_prefix_free.
Qed.

Lemma fresh_table_nonempty tree k c :
  NoDup (leaves tree) ->
  assign_all ∅ (codes tree (root_prefix tree)) !! k = Some c ->
  c <> EmptyString.
Proof. intros Hnd Hk%fresh_table_lookup; [|done]. by eapply root_codes_nonempty. Qed.
End table.

(** ** Encoding and decoding with a prefix-free table *)

Section codec.
Variable d : gmap ascii string.
Variable rd : gmap string ascii.
Hypothesis rd_sound : forall p k, rd !! p = Some k -> d !! k = Some p.
Hypothesis rd_complete : forall p k, d !! k = Some p -> is_Some (rd !! p).
Hypothesis d_prefix_free : prefix_free d.
Hypothesis d_nonempty : forall k c, d !! k = Some c -> c <> EmptyString.

Lemma rd_lookup k c : d !! k = Some c -> rd !! c = Some k.
Proof.
  intros Hk. destruct (rd_complete _ _ Hk) as [k' Hk'].
  destruct (decide (k' = k)) as [->|Hne]; [done|].
  destruct (d_prefix_free k' k c c); auto using is_prefix_refl.
Qed.

(** The decoder reads one code word: with [b] in the buffer and the
    rest [s] of the word ahead, it emits the symbol and empties the
    buffer. *)
Lemma decode_word k code (s : string) :
  d !! k = Some code ->
  s <> EmptyString ->
  forall b rest out,
    b +:+ s = code ->
    decode_loop rd (s +:+ rest) b out =
      decode_loop rd rest EmptyString (out +:+ String k EmptyString).
Proof.
  intros Hk. induction s as [|x s IH]; [done|]. intros _ b rest out Hcode.
  rewrite str_app_cons. simpl.
  assert (Hcode' : (b +:+ String x EmptyString) +:+ s = code).
  { by rewrite str_app_assoc. }
  destruct s as [|y s].
  - rewrite str_app_empty_r in Hcode'. rewrite Hcode'.
    by rewrite (rd_lookup _ _ Hk).
  - destruct (rd !! (b +:+ String x EmptyString)) as [k'|] eqn:Hrd.
    + exfalso. apply rd_sound in Hrd.
      destruct (decide (k' = k)) as [->|Hne].
      * rewrite Hk in Hrd. injection Hrd as Heq.
        rewrite Heq in Hcode'. symmetry in Hcode'.
        by apply str_app_inv_empty_r in Hcode'.
      * apply (d_prefix_free k' k _ code Hrd Hk Hne).
        rewrite <- Hcode'. apply is_prefix_app.
    + by apply IH.
Qed.

Lemma encode_loop_spec (s value : string) :
  (forall c, occurs c s -> is_Some (d !! c)) ->
  encode_loop d s value = Ok (value +:+ code_words d s).
Proof.
  revert value. induction s as [|x s IH]; intros value Hcov; simpl.
  - by rewrite str_app_empty_r.
  - destruct (Hcov x) as [code Hx]; [apply occurs_cons; by left|].
    rewrite Hx. simpl. rewrite IH, str_app_assoc; [done|].
    intros c Hc. apply Hcov, occurs_cons. by right.
Qed.

Lemma decode_loop_words (s rest out : string) :
  (forall c, occurs c s -> is_Some (d !! c)) ->
  decode_loop rd (code_words d s +:+ rest) EmptyString out =
    decode_loop rd rest EmptyString (out +:+ s).
Proof.
  revert out. induction s as [|x s IH]; intros out Hcov; simpl.
  - by rewrite str_app_empty_l, str_app_empty_r.
  - destruct (Hcov x) as [code Hx]; [apply occurs_cons; by left|].
    rewrite Hx. simpl. rewrite str_app_assoc.
    rewrite (decode_word x code code Hx); [|by eapply d_nonempty|done].
    rewrite IH; [by rewrite str_app_assoc|].
    intros c Hc. apply Hcov, occurs_cons. by right.
Qed.

Lemma code_words_nonempty (s : string) :
  (forall c, occurs c s -> is_Some (d !! c)) ->
  s <> EmptyString -> code_words d s <> EmptyString.
Proof.
  intros Hcov Hs. destruct s as [|x s]; [done|]. simpl.
  destruct (Hcov x) as [code Hx]; [apply occurs_cons; by left|].
  rewrite Hx. simpl. intros [Hcode _]%str_app_eq_empty.
  by eapply d_nonempty.
Qed.
End codec.

(** ** The methods of the class *)

Section methods.
Implicit Types (self : Huffman) (k : ascii) (p : string).

Lemma reversed_sound self p k :
  get_reversed_dictionary self !! p = Some k -> dictionary self !! k = Some p.
Proof.
  unfold get_reversed_dictionary, get_dictionary.
  intros [Hin|Hempty]%assign_all_lookup; [|by rewrite lookup_empty in Hempty].
  apply list_elem_of_fmap in Hin as [[k' p'] [[= -> ->] Hin]].
  by apply elem_of_map_to_list in Hin.
Qed.

Lemma reversed_complete self p k :
  dictionary self !! k = Some p -> is_Some (get_reversed_dictionary self !! p).
Proof.
  intros Hk. apply assign_all_is_Some.
  rewrite <- list_fmap_compose. apply list_elem_of_fmap.
  exists (k, p). split; [done|]. by apply elem_of_map_to_list.
Qed.

Lemma init_ok (s : string) :
  s <> EmptyString -> __init__ (Some s) = Ok {| data := s; dictionary := ∅ |}.
Proof.
  intros Hs. unfold __init__. case_decide as Hlen; [|done].
  by apply len_zero in Hlen.
Qed.

Lemma encode_loop_missing (d : gmap ascii string) (s value : string) c :
  occurs c s -> d !! c = None ->
  encode_loop d s value = Raise (Exception "Invalid huffman key.").
Proof.
  intros Hc Hnone. revert value Hc.
  induction s as [|x s IH]; intros value Hc; simpl.
  - by apply occurs_empty in Hc.
  - destruct (d !! x) as [code|] eqn:Hx; [|done].
    apply IH. apply occurs_cons in Hc as [Heq|Hc]; [congruence|done].
Qed.

Lemma encode_ok self :
  (forall c, occurs c (data self) -> is_Some (dictionary self !! c)) ->
  data self <> EmptyString ->
  __encode self = Ok (code_words (dictionary self) (data self)).
Proof.
  intros Hcov Hne. unfold __encode. case_decide as Hsize.
  - apply map_size_empty_iff in Hsize.
    destruct (data self) as [|x s]; [done|].
    destruct (Hcov x) as [c Hc]; [apply occurs_cons; by left|].
    by rewrite Hsize, lookup_empty in Hc.
  - by rewrite encode_loop_spec.
Qed.

(** What [encode_huffman] does on an instance with data: it builds a
    tree over the symbols of the data, assigns the code words of that
    tree into the dictionary and returns the concatenated code words. *)
Lemma encode_huffman_spec self :
  data self <> EmptyString ->
  exists root,
    __huffman_tree (__create_frequency self) = Ok root /\
    NoDup (leaves root) /\
    (forall k, k ∈ leaves root <-> occurs k (data self)) /\
    encode_huffman self =
      (__huffman_code self root,
       Ok (code_words (dictionary (__huffman_code self root)) (data self))).
Proof.
  intros Hne. destruct (tree_of_data self Hne) as (root & Htree & Hnd & Hleaves).
  exists root. split_and!; [done..|].
  unfold encode_huffman. rewrite Htree. cbv zeta.
  rewrite encode_ok; [done| |done].
  intros c Hc. rewrite huffman_code_dictionary.
  apply table_is_Some, Hleaves, Hc.
Qed.
Lemma len_repeat_char c (n : nat) : len (repeat_char c n) = Z.of_nat n.
Proof. unfold len. induction n as [|n IH]; simpl; lia. Qed.

Lemma str_count_repeat_char c (n : nat) k :
  str_count k (repeat_char c n) = if decide (c = k) then Z.of_nat n else 0.
Proof.
  induction n as [|n IH]; simpl; [by case_decide|]. rewrite IH. case_decide; lia.
Qed.

(** The run of [encode_huffman] on a fresh instance whose data is one
    symbol repeated. *)
Lemma single_symbol_encode c (n : nat) :
  (1 <= n)%nat ->
  encode_huffman {| data := repeat_char c n; dictionary := ∅ |} =
    ({| data := repeat_char c n; dictionary := {[ c := "1" ]} |},
     Ok (repeat_char "1" n)).
Proof.
  intros Hn. set (self := {| data := repeat_char c n; dictionary := ∅ |}).
  assert (Hfreq : __create_frequency self = [Leaf (Z.of_nat n) c]).
  { unfold __create_frequency. simpl.
    assert (Counter (repeat_char c n) = {[ c := Z.of_nat n ]}) as ->.
    { apply map_eq. intros k. rewrite Counter_lookup, str_count_repeat_char.
      destruct (decide (c = k)) as [->|Hne].
      - rewrite lookup_singleton_eq. case_decide; [lia|done].
      - rewrite lookup_singleton_ne by done. by case_decide. }
    by rewrite map_to_list_singleton. }
  destruct (huffman_tree_spec (__create_frequency self))
    as (root & Htree & _ & Hone & _); [by rewrite Hfreq|].
  rewrite Hfreq in Hone. specialize (Hone eq_refl). injection Hone as <-.
  set (self' := __huffman_code self (Leaf (Z.of_nat n) c)).
  assert (Hdict : dictionary self' = {[ c := "1" ]}).
  { subst self'. rewrite huffman_code_dictionary. simpl. apply insert_empty. }
  assert (Hself' : self' = {| data := repeat_char c n; dictionary := {[ c := "1" ]} |}).
  { rewrite <- Hdict. reflexivity. }
  assert (Hwords : forall m,
    code_words ({[ c := "1" ]} : gmap ascii string) (repeat_char c m)
    = repeat_char "1" m).
  { induction m as [|m IH]; simpl; [done|]. by rewrite lookup_singleton_eq, IH. }
  unfold encode_huffman. rewrite Htree. cbv zeta. fold self'. rewrite Hself'.
  rewrite encode_ok; simpl; [by rewrite Hwords| |destruct n; [lia|done]].
  intros k Hk. apply str_count_pos in Hk. rewrite str_count_repeat_char in Hk.
  case_decide as Hck; [subst k|lia]. rewrite lookup_singleton_eq. by eexists.
Qed.
End methods.

(** ** Sums over symbols *)

Section sums.
Implicit Types (g h : ascii -> Z) (l : list ascii).

Lemma sum_over_ext g h l :
  (forall k, k ∈ l -> g k = h k) -> sum_over g l = sum_over h l.
Proof.
  induction l as [|x l IH]; intros Hext; simpl; [done|].
  rewrite Hext, IH; [done| |by left]. intros k Hk. apply Hext. by right.
Qed.

Lemma sum_over_add g h l :
  sum_over (fun k => g k + h k) l = sum_over g l + sum_over h l.
Proof. induction l as [|x l IH]; simpl; lia. Qed.

Lemma sum_over_zero l : sum_over (fun _ => 0) l = 0.
Proof. induction l as [|x l IH]; simpl; lia. Qed.

(** A sum that selects one symbol of a duplicate-free list. *)
Lemma sum_over_select g l x :
  NoDup l -> x ∈ l ->
  sum_over (fun k => if decide (x = k) then g k else 0) l = g x.
Proof.
  induction l as [|y l IH]; intros Hnd Hx; simpl.
  - by apply elem_of_nil in Hx.
  - apply NoDup_cons in Hnd as [Hy Hnd]. case_decide as Hxy.
    + subst y. rewrite (sum_over_ext _ (fun _ => 0)), sum_over_zero; [lia|].
      intros k Hk. case_decide; [congruence|done].
    + apply elem_of_cons in Hx as [?|Hx]; [done|]. rewrite IH by done. lia.
Qed.

(** Summing over the characters of the data is summing over its
    distinct symbols, each weighted by its number of occurrences. *)
Lemma sum_over_regroup g (s : string) l :
  NoDup l -> (forall c, occurs c s -> c ∈ l) ->
  sum_over g (list_ascii_of_string s) = sum_over (fun k => str_count k s * g k) l.
Proof.
  intros Hnd. induction s as [|x s IH]; intros Hcov; simpl.
  - by rewrite (sum_over_ext _ (fun _ => 0)), sum_over_zero.
  - rewrite IH by (intros c Hc; apply Hcov, occurs_cons; by right).
    rewrite <- (sum_over_select g l x) by (try apply Hcov, occurs_cons; auto).
    rewrite <- sum_over_add. apply sum_over_ext. intros k _.
    case_decide; lia.
Qed.

Lemma len_code_words (d : gmap ascii string) (s : string) :
  len (code_words d s) =
    sum_over (fun k => len (default EmptyString (d !! k))) (list_ascii_of_string s).
Proof. induction s as [|x s IH]; simpl; [done|]. by rewrite len_app, IH. Qed.

(** Where every symbol of the list has a code word, the sum exists. *)
Lemma weighted_sum_covered (d : gmap ascii string) (s : string) l :
  (forall k, k ∈ l -> is_Some (d !! k)) ->
  weighted_sum s d l =
    Some (sum_over (fun k => str_count k s * len (default EmptyString (d !! k))) l).
Proof.
  induction l as [|x l IH]; intros Hcov; simpl; [done|].
  destruct (Hcov x) as [c Hx]; [by left|].
  rewrite Hx, IH by (intros k Hk; apply Hcov; by right). done.
Qed.

Lemma len_code_words_weighted (d : gmap ascii string) (s : string) :
  (forall c, occurs c s -> is_Some (d !! c)) ->
  weighted_length s d = Some (len (code_words d s)).
Proof.
  intros Hcov. unfold weighted_length, distinct_symbols.
  rewrite weighted_sum_covered.
  - f_equal. rewrite len_code_words. symmetry.
    apply sum_over_regroup; [apply NoDup_remove_dups|].
    intros c Hc. by apply elem_of_remove_dups.
  - intros k Hk. apply Hcov. exact (proj1 (elem_of_remove_dups _ _) Hk).
Qed.
End sums.

(** ** The runs on the test data *)

Lemma code_lengths_elem (table : gmap ascii string) k c :
  table !! k = Some c -> len c ∈ code_lengths table.
Proof.
  intros Hk. apply list_elem_of_fmap. exists (k, c). split; [done|].
  by apply elem_of_map_to_list.
Qed.

Lemma code_lengths_size (table : gmap ascii string) :
  length (code_lengths table) = size table.
Proof. unfold code_lengths. by rewrite length_fmap, length_map_to_list. Qed.

Lemma alphabet_code_table :
  code_lengths
    (get_dictionary (encode_huffman {| data := test_data_2; dictionary := ∅ |}).1)
  = [5; 4; 5; 5; 5; 5; 5; 4; 5; 4; 5; 5; 5; 5; 4; 5; 4; 5; 5; 5; 5; 5; 5; 4; 5; 5].
Proof. vm_compute. reflexivity. Qed.

Lemma alphabet_encode :
  encode_huffman {| data := test_data_2; dictionary := ∅ |}
  = (alphabet_codec, Ok alphabet_encoded).
Proof. vm_compute. reflexivity. Qed.

Lemma abc_table :
  map_to_list (get_dictionary abc_codec)
  = [("c"%char, "0"); ("a"%char, "10"); ("b"%char, "11")].
Proof. vm_compute. reflexivity. Qed.

(** ** Streams that are not a concatenation of code words *)

(** The decoder's input splits at its last match: what follows the last
    match is what is left in the buffer, and the output is that of the
    part before it. *)
Lemma decode_loop_split (rd : gmap string ascii) (e b out : string) :
  exists e1 r,
    e = e1 +:+ r /\
    (decode_loop rd e b out).2 = (decode_loop rd e1 b out).2 /\
    ((e1 = EmptyString /\ (decode_loop rd e b out).1 = b +:+ r) \/
     ((decode_loop rd e1 b out).1 = EmptyString /\ (decode_loop rd e b out).1 = r)).
Proof.
  revert b out. induction e as [|x e IH]; intros b out.
  - exists EmptyString, EmptyString. simpl. rewrite !str_app_empty_r. auto.
  - simpl. destruct (rd !! (b +:+ String x EmptyString)) as [k|] eqn:Hrd.
    + destruct (IH EmptyString (out +:+ String k EmptyString))
        as (e1 & r & -> & Hout & Hbuf).
      exists (String x e1), r. simpl. rewrite Hrd.
      split_and!; [done|done|]. right.
      destruct Hbuf as [[-> Hb]|[Hb1 Hb]]; auto.
    + destruct (IH (b +:+ String x EmptyString) out) as (e1 & r & -> & Hout & Hbuf).
      destruct Hbuf as [[-> Hb]|[Hb1 Hb]].
      * exists EmptyString, (String x r). simpl.
        split_and!; [done|done|]. left. by rewrite Hb, str_app_assoc.
      * exists (String x e1), r. simpl. rewrite Hrd. auto.
Qed.

(** ** The claims *)

(** C1 (round trip): for every non-empty sequence [S], a codec
    constructed with [S] encodes it to a stream from which
    [decode_huffman] returns exactly [S]. *)
Theorem round_trip (S : string) :
  S <> EmptyString ->
  exists self self' encoded,
    __init__ (Some S) = Ok self /\
    encode_huffman self = (self', Ok encoded) /\
    decode_huffman self' (Some encoded) = Ok S.
Proof.
  intros HS. set (self := {| data := S; dictionary := ∅ |}).
  destruct (encode_huffman_spec self HS) as (root & _ & Hnd & Hleaves & Henc).
  set (self' := __huffman_code self root) in *.
  assert (Hdict : dictionary self' = assign_all ∅ (codes root (root_prefix root))).
  { apply huffman_code_dictionary. }
  assert (Hcov : forall c, occurs c S -> is_Some (dictionary self' !! c)).
  { intros c Hc. rewrite Hdict. by apply table_is_Some, Hleaves. }
  assert (Hnonempty : forall k c, dictionary self' !! k = Some c -> c <> EmptyString).
  { intros k c. rewrite Hdict. by apply fresh_table_nonempty. }
  exists self, self', (code_words (dictionary self') S).
  split_and!; [by apply init_ok|done|].
  unfold decode_huffman. case_decide as Hlen.
  - apply len_zero in Hlen. by apply code_words_nonempty in Hlen.
  - rewrite <- (str_app_empty_r (code_words _ _)).
    rewrite (decode_loop_words (dictionary self') (get_reversed_dictionary self'));
      [done| | | |done|done].
    + apply reversed_sound.
    + apply reversed_complete.
    + rewrite Hdict. by apply fresh_table_prefix_free.
Qed.

Lemma round_trip_witness :
  exists self self' encoded,
    __init__ (Some "abracadabra") = Ok self /\
    encode_huffman self = (self', Ok encoded) /\
    decode_huffman self' (Some encoded) = Ok "abracadabra".
Proof. apply (round_trip "abracadabra"). discriminate. Defined.

(** C2, as the code has it: when a non-empty unmatched buffer remains
    after the whole stream has been read, [decode_huffman] does not
    raise.  The stream is a fully matched part followed by the unmatched
    remainder, and the call returns the symbols of the matched part; the
    remainder is dropped. *)
Theorem decode_drops_remainder (self : Huffman) (e : string) :
  e <> EmptyString ->
  unmatched self e <> EmptyString ->
  exists e1,
    e = e1 +:+ unmatched self e /\
    unmatched self e1 = EmptyString /\
    decode_huffman self (Some e) = Ok (decoded self e1).
Proof.
  intros He _. unfold unmatched, decoded, decode_huffman.
  case_decide as Hlen; [by apply len_zero in Hlen|].
  destruct (decode_loop_split (get_reversed_dictionary self) e
              EmptyString EmptyString) as (e1 & r & Heq & Hout & Hbuf).
  exists e1. rewrite Hout.
  destruct Hbuf as [[-> Hb]|[Hb1 Hb]]; rewrite Hb.
  - by rewrite Heq.
  - by rewrite Hb1, Heq.
Qed.

Lemma decode_drops_remainder_witness :
  exists e1,
    "01" = e1 +:+ unmatched abc_codec "01" /\
    unmatched abc_codec e1 = EmptyString /\
    decode_huffman abc_codec (Some "01") = Ok (decoded abc_codec e1).
Proof.
  apply (decode_drops_remainder abc_codec "01").
  - discriminate.
  - vm_compute. discriminate.
Defined.

(** C2 as stated fails: with the table generated for [abc], the stream
    [01] leaves the bit [1] unmatched, and [decode_huffman] returns [c]
    instead of raising. *)
Lemma decode_malformed_counterexample :
  size (get_dictionary abc_codec) = 3%nat /\
  unmatched abc_codec "01" = "1" /\
  decode_huffman abc_codec (Some "01") = Ok "c".
Proof. split_and!; vm_compute; reflexivity. Qed.

(** C3 (prefix-free): in the CodeTable that [encode_huffman] generates
    for a non-empty input, the code word of one symbol is never a prefix
    of the code word of another symbol. *)
Theorem generated_table_prefix_free (S : string) :
  S <> EmptyString ->
  exists self self' encoded,
    __init__ (Some S) = Ok self /\
    encode_huffman self = (self', Ok encoded) /\
    prefix_free (get_dictionary self').
Proof.
  intros HS. set (self := {| data := S; dictionary := ∅ |}).
  destruct (encode_huffman_spec self HS) as (root & _ & Hnd & Hleaves & Henc).
  eexists self, _, _. split_and!; [by apply init_ok|exact Henc|].
  unfold get_dictionary. rewrite huffman_code_dictionary.
  by apply fresh_table_prefix_free.
Qed.

Lemma generated_table_prefix_free_witness :
  exists self self' encoded,
    __init__ (Some "abracadabra") = Ok self /\
    encode_huffman self = (self', Ok encoded) /\
    prefix_free (get_dictionary self').
Proof. apply (generated_table_prefix_free "abracadabra"). discriminate. Defined.

(** C4, as the code has it: for the 26 letters, each occurring once,
    every code word of the generated CodeTable is 4 or 5 bits long (the
    floor and the ceiling of log2 26), and the table has 26 entries. *)
Theorem alphabet_code_lengths (self self' : Huffman) (encoded : string)
    (k : ascii) (c : string) :
  __init__ (Some test_data_2) = Ok self ->
  encode_huffman self = (self', Ok encoded) ->
  get_dictionary self' !! k = Some c ->
  (len c = 4 \/ len c = 5) /\ size (get_dictionary self') = 26%nat.
Proof.
  intros Hinit Henc Hk.
  rewrite init_ok in Hinit by discriminate.
  injection Hinit as <-.
  pose proof alphabet_code_table as Htable.
  rewrite Henc in Htable. simpl fst in Htable.
  generalize dependent (get_dictionary self').
  intros table Hk Htable. clear Henc.
  split.
  - apply code_lengths_elem in Hk. rewrite Htable in Hk.
    repeat (apply elem_of_cons in Hk as [->|Hk]; [auto|]).
    by apply elem_of_nil in Hk.
  - by rewrite <- code_lengths_size, Htable.
Qed.

Lemma alphabet_code_lengths_witness :
  (len "0000" = 4 \/ len "0000" = 5) /\
  size (get_dictionary alphabet_codec) = 26%nat.
Proof.
  apply (alphabet_code_lengths
           {| data := test_data_2; dictionary := ∅ |}
           alphabet_codec alphabet_encoded "u" "0000").
  - reflexivity.
  - exact alphabet_encode.
  - vm_compute. reflexivity.
Defined.

(** C4 as stated fails: the symbol [u] receives the 4-bit code word
    [0000], which is neither 5 nor 6 bits long. *)
Lemma alphabet_code_lengths_counterexample :
  exists self self' encoded c,
    __init__ (Some test_data_2) = Ok self /\
    encode_huffman self = (self', Ok encoded) /\
    get_dictionary self' !! "u"%char = Some c /\
    ~ (len c = 5 \/ len c = 6).
Proof.
  exists {| data := test_data_2; dictionary := ∅ |},
         alphabet_codec, alphabet_encoded, "0000".
  split_and!.
  - reflexivity.
  - exact alphabet_encode.
  - vm_compute. reflexivity.
  - intros [H|H]; vm_compute in H; discriminate.
Qed.

(** C5 (single symbol): for an input made of one symbol repeated
    [n >= 1] times, the generated CodeTable has exactly one entry, with
    the code word ["1"], and the encoded stream is as long as the
    input. *)
Theorem single_symbol (c : ascii) (n : nat) :
  (1 <= n)%nat ->
  exists self self' encoded,
    __init__ (Some (repeat_char c n)) = Ok self /\
    encode_huffman self = (self', Ok encoded) /\
    get_dictionary self' = {[ c := "1" ]} /\
    len encoded = Z.of_nat n /\
    len encoded = len (repeat_char c n).
Proof.
  intros Hn. eexists _, _, _.
  split_and!.
  - apply init_ok. destruct n; [lia|done].
  - by apply single_symbol_encode.
  - done.
  - apply len_repeat_char.
  - by rewrite !len_repeat_char.
Qed.

Lemma single_symbol_witness :
  exists self self' encoded,
    __init__ (Some (repeat_char "a" 26)) = Ok self /\
    encode_huffman self = (self', Ok encoded) /\
    get_dictionary self' = {[ "a"%char := "1" ]} /\
    len encoded = Z.of_nat 26 /\
    len encoded = len (repeat_char "a" 26).
Proof. apply (single_symbol "a" 26). lia. Defined.

(** C6 (compression ratio): for a non-empty encoded stream [e] and
    non-empty data [d], [get_compression_ratio] returns
    [1 - len(e) / float(len(d) * 8)] in binary64 arithmetic; for 26
    copies of one symbol, encoded by the instance itself, this is
    [0.875]. *)
Theorem compression_ratio_value :
  (forall (self : Huffman) (e : string),
     e <> EmptyString -> data self <> EmptyString ->
     get_compression_ratio self (Some e) =
       Ok (1 - float_of_int (len e) / float_of_int (len (data self) * 8))%float) /\
  (forall c : ascii,
     exists self self' encoded,
       __init__ (Some (repeat_char c 26)) = Ok self /\
       encode_huffman self = (self', Ok encoded) /\
       get_compression_ratio self' (Some encoded) = Ok 0.875%float).
Proof.
  assert (Hgen : forall (self : Huffman) (e : string),
     e <> EmptyString -> data self <> EmptyString ->
     get_compression_ratio self (Some e) =
       Ok (1 - float_of_int (len e) / float_of_int (len (data self) * 8))%float).
  { intros self e He Hd. unfold get_compression_ratio.
    case_decide as H1; [by apply len_zero in H1|].
    case_decide as H2; [by apply len_zero in H2|]. done. }
  split; [exact Hgen|].
  intros c. eexists _, _, _. split_and!.
  - by apply init_ok.
  - apply (single_symbol_encode c 26). lia.
  - rewrite Hgen by done. simpl data. rewrite !len_repeat_char.
    vm_compute. reflexivity.
Qed.

Lemma compression_ratio_value_witness :
  get_compression_ratio {| data := "aaaa"; dictionary := {[ "a"%char := "1" ]} |}
                        (Some "1111")
  = Ok 0.875%float.
Proof.
  rewrite (proj1 compression_ratio_value) by discriminate.
  vm_compute. reflexivity.
Defined.

(** C7 (invalid input): constructing a codec with empty or absent data
    raises, and so do [decode_huffman] and [get_compression_ratio] on an
    empty or absent encoded stream; none of these calls returns. *)
Theorem invalid_input_raises :
  __init__ None = Raise (Exception "Invalid data.") /\
  __init__ (Some EmptyString) = Raise (Exception "Invalid data.") /\
  (forall self,
     decode_huffman self None = Raise (Exception "Invalid encoded value.") /\
     decode_huffman self (Some EmptyString)
       = Raise (Exception "Invalid encoded value.")) /\
  (forall self,
     get_compression_ratio self None
       = Raise (Exception (quoted "Invalid argument " "encodedValue" ".")) /\
     get_compression_ratio self (Some EmptyString)
       = Raise (Exception (quoted "Invalid argument " "encodedValue" "."))).
Proof. split_and!; try done; intros self; split; reflexivity. Qed.

(** C8 (missing code): when [__encode] runs with a populated CodeTable
    that has no entry for a symbol that occurs in the data, it raises
    the missing-key exception; it neither skips the symbol nor returns a
    stream. *)
Theorem encode_missing_code (self : Huffman) (c : ascii) :
  dictionary self <> ∅ ->
  occurs c (data self) ->
  dictionary self !! c = None ->
  __encode self = Raise (Exception "Invalid huffman key.").
Proof.
  intros Hpop Hc Hnone. unfold __encode.
  case_decide as Hsize; [by apply map_size_empty_iff in Hsize|].
  by apply encode_loop_missing with c.
Qed.

Lemma encode_missing_code_witness :
  __encode {| data := "abc"; dictionary := {[ "a"%char := "0"; "b"%char := "1" ]} |}
    = Raise (Exception "Invalid huffman key.").
Proof.
  apply (encode_missing_code _ "c"); simpl.
  - intros Hempty. apply (f_equal (fun m => m !! "a"%char)) in Hempty.
    vm_compute in Hempty. discriminate.
  - apply str_count_pos. vm_compute. reflexivity.
  - vm_compute. reflexivity.
Defined.

(** C9 (length of the stream): for every non-empty input, every
    distinct symbol of the data has a code word in the CodeTable, and the
    encoded stream is as long as the sum, over the distinct symbols of
    the data, of the symbol's number of occurrences times the length of
    its code word in the CodeTable. *)
Theorem encoded_length (S : string) :
  S <> EmptyString ->
  exists self self' encoded,
    __init__ (Some S) = Ok self /\
    encode_huffman self = (self', Ok encoded) /\
    (forall k, occurs k S -> exists c, get_dictionary self' !! k = Some c) /\
    weighted_length S (get_dictionary self') = Some (len encoded).
Proof.
  intros HS. set (self := {| data := S; dictionary := ∅ |}).
  destruct (encode_huffman_spec self HS) as (root & _ & _ & Hleaves & Henc).
  assert (Hcov : forall k, occurs k S ->
    is_Some (dictionary (__huffman_code self root) !! k)).
  { intros k Hk. rewrite huffman_code_dictionary.
    by apply table_is_Some, Hleaves. }
  eexists self, _, _. split_and!; [by apply init_ok|exact Henc|exact Hcov|].
  by apply len_code_words_weighted.
Qed.

Lemma encoded_length_witness :
  exists self self' encoded,
    __init__ (Some "abracadabra") = Ok self /\
    encode_huffman self = (self', Ok encoded) /\
    (forall k, occurs k "abracadabra" ->
               exists c, get_dictionary self' !! k = Some c) /\
    weighted_length "abracadabra" (get_dictionary self') = Some (len encoded).
Proof. apply (encoded_length "abracadabra"). discriminate. Defined.

(** C10 (merge, not replace): after the CodeTable was set to a mapping
    [T], [encode_huffman] leaves every key of [T] that is not a symbol of
    the data at its bit pattern [T[k]]. *)
Theorem encode_keeps_other_keys (self : Huffman) (T : gmap ascii string)
    (k : ascii) (p : string) :
  T !! k = Some p ->
  ~ occurs k (data self) ->
  get_dictionary (encode_huffman (set_dictionary self T)).1 !! k = Some p.
Proof.
  intros HT Hk. set (self0 := set_dictionary self T).
  destruct (decide (data self = EmptyString)) as [Hempty|Hne].
  - assert (Hfreq : __create_frequency self0 = []).
    { unfold __create_frequency. subst self0. simpl. rewrite Hempty.
      unfold Counter. simpl. by rewrite map_to_list_empty. }
    unfold encode_huffman. by rewrite Hfreq.
  - destruct (encode_huffman_spec self0 Hne) as (root & _ & _ & Hleaves & ->).
    unfold get_dictionary. simpl fst.
    rewrite huffman_code_dictionary, table_lookup_other; [done|].
    by rewrite Hleaves.
Qed.

Lemma encode_keeps_other_keys_witness :
  get_dictionary
    (encode_huffman
       (set_dictionary {| data := "abc"; dictionary := ∅ |}
                       {[ "z"%char := "0110" ]})).1 !! "z"%char
  = Some "0110".
Proof.
  apply encode_keeps_other_keys.
  - vm_compute. reflexivity.
  - rewrite str_count_pos. vm_compute. discriminate.
Defined.

(** ** Further properties of the decoder *)

Section decoder.
Implicit Types (rd : gmap string ascii) (d : gmap ascii string).

Lemma code_words_app d (s t : string) :
  code_words d (s +:+ t) = code_words d s +:+ code_words d t.
Proof.
  induction s as [|x s IH]; [done|]. rewrite str_app_cons. simpl.
  by rewrite IH, str_app_assoc.
Qed.

(** The output already collected is only extended. *)
Lemma decode_loop_out rd (e b out : string) :
  decode_loop rd e b out =
    ((decode_loop rd e b EmptyString).1,
     out +:+ (decode_loop rd e b EmptyString).2).
Proof.
  revert b out. induction e as [|x e IH]; intros b out; simpl.
  - by rewrite str_app_empty_r.
  - destruct (rd !! (b +:+ String x EmptyString)) as [k|]; [|apply IH].
    rewrite (IH _ (out +:+ _)), (IH _ (EmptyString +:+ _)). simpl.
    by rewrite str_app_assoc.
Qed.

(** Reading [e1 e2] is reading [e1] and going on with [e2]. *)
Lemma decode_loop_app rd (e1 e2 b out : string) :
  decode_loop rd (e1 +:+ e2) b out =
    decode_loop rd e2 (decode_loop rd e1 b out).1 (decode_loop rd e1 b out).2.
Proof.
  revert b out. induction e1 as [|x e1 IH]; intros b out; [done|].
  rewrite str_app_cons. simpl.
  destruct (rd !! (b +:+ String x EmptyString)); apply IH.
Qed.

(** The code words of the symbols emitted so far, followed by the
    buffer, are the bits read so far. *)
Lemma decode_loop_reassemble d rd (e b out : string) :
  (forall p k, rd !! p = Some k -> d !! k = Some p) ->
  code_words d (decode_loop rd e b out).2 +:+ (decode_loop rd e b out).1
  = (code_words d out +:+ b) +:+ e.
Proof.
  intros Hsound. revert b out. induction e as [|x e IH]; intros b out; simpl.
  - by rewrite str_app_empty_r.
  - destruct (rd !! (b +:+ String x EmptyString)) as [k|] eqn:Hrd; rewrite IH.
    + apply Hsound in Hrd. rewrite code_words_app. simpl. rewrite Hrd. simpl.
      by rewrite !str_app_empty_r, !str_app_assoc.
    + by rewrite !str_app_assoc.
Qed.

Lemma decode_loop_empty_table (e b out : string) :
  decode_loop ∅ e b out = (b +:+ e, out).
Proof.
  revert b. induction e as [|x e IH]; intros b; simpl.
  - by rewrite str_app_empty_r.
  - rewrite lookup_empty, IH. by rewrite str_app_assoc.
Qed.

Lemma decode_huffman_ok self (e : string) :
  e <> EmptyString -> decode_huffman self (Some e) = Ok (decoded self e).
Proof.
  intros He. unfold decode_huffman. case_decide as Hlen; [|done].
  by apply len_zero in Hlen.
Qed.

Lemma reversed_empty self :
  dictionary self = ∅ -> get_reversed_dictionary self = ∅.
Proof.
  intros Hd. unfold get_reversed_dictionary, get_dictionary.
  by rewrite Hd, map_to_list_empty.
Qed.
End decoder.

(** X1 (no bit is invented or lost): whatever the table, the code words
    of the symbols that [decode_huffman] returns, followed by the bits
    left unmatched, are exactly the stream that was read. *)
Theorem decode_reassembles (self : Huffman) (e : string) :
  e <> EmptyString ->
  exists out,
    decode_huffman self (Some e) = Ok out /\
    code_words (dictionary self) out +:+ unmatched self e = e.
Proof.
  intros He. exists (decoded self e). split; [by apply decode_huffman_ok|].
  unfold decoded, unmatched.
  rewrite (decode_loop_reassemble (dictionary self)); [done|].
  apply reversed_sound.
Qed.

Lemma decode_reassembles_witness :
  exists out,
    decode_huffman abc_codec (Some "01") = Ok out /\
    code_words (dictionary abc_codec) out +:+ unmatched abc_codec "01" = "01".
Proof. apply (decode_reassembles abc_codec "01"). discriminate. Defined.

(** X2 (decoding a concatenation): when the first stream is read without
    a remainder, decoding two streams in a row gives the two results in
    a row. *)
Theorem decode_concatenation (self : Huffman) (e1 e2 o1 o2 : string) :
  decode_huffman self (Some e1) = Ok o1 ->
  decode_huffman self (Some e2) = Ok o2 ->
  unmatched self e1 = EmptyString ->
  decode_huffman self (Some (e1 +:+ e2)) = Ok (o1 +:+ o2).
Proof.
  intros H1 H2 Hbuf.
  assert (He1 : e1 <> EmptyString) by (by intros ->).
  assert (He2 : e2 <> EmptyString) by (by intros ->).
  rewrite decode_huffman_ok in H1, H2 by done.
  injection H1 as <-. injection H2 as <-.
  rewrite decode_huffman_ok by (by intros [-> _]%str_app_eq_empty).
  f_equal. unfold decoded, unmatched in *.
  rewrite decode_loop_app, Hbuf. by rewrite decode_loop_out.
Qed.

Lemma decode_concatenation_witness :
  decode_huffman abc_codec (Some ("10" +:+ "011")) = Ok ("a" +:+ "cb").
Proof.
  apply decode_concatenation; vm_compute; reflexivity.
Defined.

(** X3 (no table yet): on an instance whose table is empty,
    [decode_huffman] does not raise for a non-empty stream; it matches
    nothing, returns the empty string and leaves the whole stream in
    the buffer. *)
Theorem decode_without_table (self : Huffman) (e : string) :
  dictionary self = ∅ ->
  e <> EmptyString ->
  decode_huffman self (Some e) = Ok EmptyString /\ unmatched self e = e.
Proof.
  intros Hd He. rewrite decode_huffman_ok by done.
  unfold decoded, unmatched. rewrite (reversed_empty self Hd).
  by rewrite decode_loop_empty_table.
Qed.

Lemma decode_without_table_witness :
  decode_huffman {| data := "abc"; dictionary := ∅ |} (Some "0110")
    = Ok EmptyString /\
  unmatched {| data := "abc"; dictionary := ∅ |} "0110" = "0110".
Proof. apply decode_without_table; [reflexivity|discriminate]. Defined.

(** ** Further properties of the tables *)

Section tables.
Implicit Types (self : Huffman) (d : gmap ascii string) (k : ascii).

Lemma code_words_ext d d' (s : string) :
  (forall c, occurs c s -> d !! c = d' !! c) ->
  code_words d s = code_words d' s.
Proof.
  induction s as [|x s IH]; intros Hext; simpl; [done|].
  rewrite Hext, IH; [done| |apply occurs_cons; by left].
  intros c Hc. apply Hext, occurs_cons. by right.
Qed.

Lemma elem_of_fst_codes (kvs : list (ascii * string)) k :
  k ∈ kvs.*1 -> exists c, (k, c) ∈ kvs.
Proof.
  intros [[k' c] [-> Hin]]%list_elem_of_fmap. by exists c.
Qed.

(** Assigning the same code words a second time changes nothing. *)
Lemma assign_all_twice d (kvs : list (ascii * string)) :
  NoDup kvs.*1 -> assign_all (assign_all d kvs) kvs = assign_all d kvs.
Proof.
  intros Hnd. apply map_eq. intros k.
  destruct (decide (k ∈ kvs.*1)) as [Hk|Hk].
  - apply elem_of_fst_codes in Hk as [c Hc]. by rewrite !(assign_all_elem _ _ k c).
  - by rewrite !assign_all_other.
Qed.

(** Two start tables that agree outside the assigned keys give the same
    table. *)
Lemma assign_all_agree d d' (kvs : list (ascii * string)) :
  NoDup kvs.*1 ->
  (forall k, k ∉ kvs.*1 -> d !! k = d' !! k) ->
  assign_all d kvs = assign_all d' kvs.
Proof.
  intros Hnd Hout. apply map_eq. intros k.
  destruct (decide (k ∈ kvs.*1)) as [Hk|Hk].
  - apply elem_of_fst_codes in Hk as [c Hc]. by rewrite !(assign_all_elem _ _ k c).
  - rewrite !assign_all_other by done. by apply Hout.
Qed.

Lemma Huffman_eq self self0 :
  data self = data self0 -> dictionary self = dictionary self0 -> self = self0.
Proof. destruct self, self0. simpl. by intros -> ->. Qed.

Lemma create_frequency_data self self0 :
  data self = data self0 -> __create_frequency self = __create_frequency self0.
Proof. unfold __create_frequency. by intros ->. Qed.

Lemma create_frequency_empty self :
  data self = EmptyString -> __create_frequency self = [].
Proof.
  intros Hd. unfold __create_frequency. rewrite Hd. unfold Counter. simpl.
  by rewrite map_to_list_empty.
Qed.

Lemma encode_huffman_empty self :
  data self = EmptyString ->
  encode_huffman self = (self, Raise (Exception "Invalid frequency table.")).
Proof.
  intros Hd. unfold encode_huffman. by rewrite (create_frequency_empty self Hd).
Qed.

(** Decoding with a table that is prefix-free and has no empty code
    word: the code words of any message over the keys of the table are
    read back as the message, and no bit is left over. *)
Lemma decode_code_words self (s : string) :
  prefix_free (dictionary self) ->
  (forall k c, dictionary self !! k = Some c -> c <> EmptyString) ->
  (forall c, occurs c s -> is_Some (dictionary self !! c)) ->
  decoded self (code_words (dictionary self) s) = s /\
  unmatched self (code_words (dictionary self) s) = EmptyString.
Proof.
  intros Hpf Hne Hcov. unfold decoded, unmatched.
  rewrite <- (str_app_empty_r (code_words _ _)).
  rewrite (decode_loop_words (dictionary self) (get_reversed_dictionary self));
    [done| | |done|done|done].
  - apply reversed_sound.
  - apply reversed_complete.
Qed.
End tables.

(** X4 (the reversed table): every bit pattern in the reversed table is
    the code word of the symbol it maps to, and when no two symbols
    share a code word the reversed table is exactly the inverse:
    a pattern maps to a symbol if and only if it is that symbol's code
    word. *)
Theorem reversed_dictionary_inverse (self : Huffman) (p : string) (k : ascii) :
  (forall k1 k2 c,
     dictionary self !! k1 = Some c -> dictionary self !! k2 = Some c ->
     k1 = k2) ->
  get_reversed_dictionary self !! p = Some k <-> get_dictionary self !! k = Some p.
Proof.
  intros Hinj. split; [apply reversed_sound|].
  intros Hk. destruct (reversed_complete self p k Hk) as [k' Hk'].
  rewrite Hk'. f_equal. apply reversed_sound in Hk'. by eapply Hinj.
Qed.

Lemma reversed_dictionary_inverse_witness :
  get_reversed_dictionary {| data := "a"; dictionary := {[ "a"%char := "1" ]} |}
    !! "1" = Some "a"%char
  <-> get_dictionary {| data := "a"; dictionary := {[ "a"%char := "1" ]} |}
    !! "a"%char = Some "1".
Proof.
  apply reversed_dictionary_inverse. simpl. intros k1 k2 c H1 H2.
  apply lookup_singleton_Some in H1 as [<- _].
  by apply lookup_singleton_Some in H2 as [<- _].
Defined.

(** X5 (when [__encode] returns): [__encode] returns a stream exactly
    when the table is not empty and has an entry for every symbol of the
    data, and the stream is then the code words of the symbols in the
    order of the data. *)
Theorem encode_returns_iff (self : Huffman) :
  ((exists out, __encode self = Ok out) <->
   dictionary self <> ∅ /\
   forall c, occurs c (data self) -> is_Some (dictionary self !! c)) /\
  (forall out, __encode self = Ok out ->
               out = code_words (dictionary self) (data self)).
Proof.
  assert (Hcases :
    (forall c, occurs c (data self) -> is_Some (dictionary self !! c)) \/
    exists c, occurs c (data self) /\ dictionary self !! c = None).
  { induction (data self) as [|x s IH].
    - left. intros c Hc. by apply occurs_empty in Hc.
    - destruct (dictionary self !! x) as [code|] eqn:Hx.
      + destruct IH as [IH|(c & Hc & Hnone)].
        * left. intros c [->|Hc]%occurs_cons; [by rewrite Hx|by apply IH].
        * right. exists c. split; [apply occurs_cons; by right|done].
      + right. exists x. split; [apply occurs_cons; by left|done]. }
  unfold __encode. case_decide as Hsize.
  - apply map_size_empty_iff in Hsize. split; [|done].
    split; [by intros [out ?]|]. by intros [Hne _].
  - assert (Hne : dictionary self <> ∅) by (by intros ?%map_size_empty_iff).
    destruct Hcases as [Hcov|(c & Hc & Hnone)].
    + rewrite encode_loop_spec by done. rewrite str_app_empty_l.
      split; [|by intros out [= <-]]. split; [done|]. intros _. by eexists.
    + rewrite (encode_loop_missing _ _ _ c) by done.
      split; [|done]. split; [by intros [out ?]|].
      intros [_ Hcov]. destruct (Hcov c Hc) as [code Hcode]. congruence.
Qed.

(** X6 (the stream does not depend on an earlier table): whatever table
    was set before, [encode_huffman] returns the same stream or raises
    the same exception as on the instance as it was. *)
Theorem encode_ignores_earlier_table (self : Huffman) (T : gmap ascii string) :
  (encode_huffman (set_dictionary self T)).2 = (encode_huffman self).2.
Proof.
  destruct (decide (data self = EmptyString)) as [Hempty|Hne].
  - by rewrite !encode_huffman_empty.
  - destruct (encode_huffman_spec self Hne) as (root & Htree & Hnd & Hleaves & ->).
    destruct (encode_huffman_spec (set_dictionary self T) Hne)
      as (root' & Htree' & _ & _ & ->).
    rewrite (create_frequency_data _ self) in Htree' by done.
    rewrite Htree in Htree'. injection Htree' as <-.
    cbv beta iota delta [snd]. f_equal.
    change (data (set_dictionary self T)) with (data self).
    apply code_words_ext. intros c Hc. rewrite !huffman_code_dictionary.
    apply Hleaves, (table_is_Some ∅ root) in Hc as [code Hcode].
    apply fresh_table_lookup in Hcode; [|done].
    by rewrite !(table_lookup_leaf _ root c code).
Qed.

(** X7 (encoding twice): a second call of [encode_huffman] returns the
    same stream, or raises the same exception, and leaves the instance
    as the first call left it. *)
Theorem encode_twice (self : Huffman) :
  encode_huffman (encode_huffman self).1 = encode_huffman self.
Proof.
  destruct (decide (data self = EmptyString)) as [Hempty|Hne].
  - rewrite (encode_huffman_empty self Hempty). simpl.
    by apply encode_huffman_empty.
  - destruct (encode_huffman_spec self Hne) as (root & Htree & Hnd & Hleaves & Henc).
    rewrite Henc. simpl fst.
    assert (Hsame : __huffman_code (__huffman_code self root) root
                    = __huffman_code self root).
    { apply Huffman_eq; [done|].
      rewrite (huffman_code_dictionary (__huffman_code self root)).
      rewrite (huffman_code_dictionary self).
      apply assign_all_twice. by rewrite codes_fst. }
    unfold encode_huffman at 1.
    rewrite (create_frequency_data _ self) by done.
    rewrite Htree. cbv zeta. rewrite Hsame.
    rewrite encode_ok; [done| |done].
    intros c Hc. rewrite huffman_code_dictionary.
    by apply table_is_Some, Hleaves.
Qed.

(** ** Round trips with a table that was set *)

(** The table that [encode_huffman] leaves on a fresh instance with the
    data [S]. *)
Lemma fresh_encode (S : string) :
  S <> EmptyString ->
  exists root,
    NoDup (leaves root) /\
    (forall k, k ∈ leaves root <-> occurs k S) /\
    encode_huffman {| data := S; dictionary := ∅ |}
      = (__huffman_code {| data := S; dictionary := ∅ |} root,
         Ok (code_words
               (dictionary (__huffman_code {| data := S; dictionary := ∅ |} root))
               S)) /\
    dictionary (__huffman_code {| data := S; dictionary := ∅ |} root)
      = assign_all ∅ (codes root (root_prefix root)).
Proof.
  intros HS.
  destruct (encode_huffman_spec {| data := S; dictionary := ∅ |} HS)
    as (root & _ & Hnd & Hleaves & Henc).
  exists root. split_and!; [done|done|exact Henc|apply huffman_code_dictionary].
Qed.

(** X8 (round trip after [set_dictionary]): when a table was set whose
    keys are all symbols of the data, [encode_huffman] still returns a
    stream from which [decode_huffman] returns the data. *)
Theorem round_trip_after_set_dictionary (self : Huffman) (T : gmap ascii string) :
  data self <> EmptyString ->
  (forall k, is_Some (T !! k) -> occurs k (data self)) ->
  exists self' encoded,
    encode_huffman (set_dictionary self T) = (self', Ok encoded) /\
    decode_huffman self' (Some encoded) = Ok (data self).
Proof.
  intros Hne Hkeys.
  destruct (encode_huffman_spec (set_dictionary self T) Hne)
    as (root & _ & Hnd & Hleaves & Henc).
  set (self' := __huffman_code (set_dictionary self T) root) in *.
  assert (Hdict : dictionary self' = assign_all ∅ (codes root (root_prefix root))).
  { subst self'. rewrite huffman_code_dictionary.
    apply assign_all_agree; [by rewrite codes_fst|].
    intros k Hk. rewrite codes_fst in Hk. rewrite lookup_empty.
    apply eq_None_not_Some. intros HT. by apply Hk, Hleaves, Hkeys. }
  assert (Hcov : forall c, occurs c (data self) -> is_Some (dictionary self' !! c)).
  { intros c Hc. rewrite Hdict. by apply table_is_Some, Hleaves. }
  assert (Hnonempty : forall k c, dictionary self' !! k = Some c -> c <> EmptyString).
  { intros k c. rewrite Hdict. by apply fresh_table_nonempty. }
  eexists _, _. split; [exact Henc|].
  change (data (set_dictionary self T)) with (data self).
  rewrite decode_huffman_ok by (by apply code_words_nonempty).
  f_equal. apply decode_code_words; [|done..].
  rewrite Hdict. by apply fresh_table_prefix_free.
Qed.

Lemma round_trip_after_set_dictionary_witness :
  exists self' encoded,
    encode_huffman
      (set_dictionary {| data := "abc"; dictionary := ∅ |} {[ "a"%char := "0" ]})
    = (self', Ok encoded) /\
    decode_huffman self' (Some encoded) = Ok "abc".
Proof.
  apply (round_trip_after_set_dictionary {| data := "abc"; dictionary := ∅ |}).
  - discriminate.
  - intros k [c [<- _]%lookup_singleton_Some]. simpl.
    apply str_count_pos. vm_compute. reflexivity.
Defined.

(** X9 (a published table): an instance that was given the table
    generated for [S] by [set_dictionary] decodes the stream encoded for
    [S], whatever its own data is. *)
Theorem decode_with_published_table (S : string) (other : Huffman) :
  S <> EmptyString ->
  exists self self' encoded,
    __init__ (Some S) = Ok self /\
    encode_huffman self = (self', Ok encoded) /\
    decode_huffman (set_dictionary other (get_dictionary self')) (Some encoded)
      = Ok S.
Proof.
  intros HS.
  destruct (fresh_encode S HS) as (root & Hnd & Hleaves & Henc & Hdict).
  eexists _, _, _. split_and!; [by apply init_ok|exact Henc|].
  set (self' := __huffman_code {| data := S; dictionary := ∅ |} root) in *.
  set (receiver := set_dictionary other (get_dictionary self')).
  change (dictionary self') with (dictionary receiver) in *.
  assert (Hcov : forall c, occurs c S -> is_Some (dictionary receiver !! c)).
  { intros c Hc. rewrite Hdict. by apply table_is_Some, Hleaves. }
  assert (Hnonempty : forall k c, dictionary receiver !! k = Some c -> c <> EmptyString).
  { intros k c. rewrite Hdict. by apply fresh_table_nonempty. }
  rewrite decode_huffman_ok by (by apply code_words_nonempty).
  f_equal. apply decode_code_words; [|done..].
  rewrite Hdict. by apply fresh_table_prefix_free.
Qed.

Lemma decode_with_published_table_witness :
  exists self self' encoded,
    __init__ (Some "abracadabra") = Ok self /\
    encode_huffman self = (self', Ok encoded) /\
    decode_huffman
      (set_dictionary {| data := "xyz"; dictionary := ∅ |} (get_dictionary self'))
      (Some encoded)
      = Ok "abracadabra".
Proof.
  apply (decode_with_published_table "abracadabra" {| data := "xyz"; dictionary := ∅ |}).
  discriminate.
Defined.

(** X10 (other messages over the same symbols): with the table generated
    for [S], every non-empty message made of symbols of [S] is encoded by
    [__encode] to a stream from which [decode_huffman] returns the
    message. *)
Theorem table_serves_every_message (S message : string) :
  S <> EmptyString ->
  message <> EmptyString ->
  (forall c, occurs c message -> occurs c S) ->
  exists self self' encoded sender stream,
    __init__ (Some S) = Ok self /\
    encode_huffman self = (self', Ok encoded) /\
    __init__ (Some message) = Ok sender /\
    __encode (set_dictionary sender (get_dictionary self')) = Ok stream /\
    decode_huffman self' (Some stream) = Ok message.
Proof.
  intros HS Hm Hsub.
  destruct (fresh_encode S HS) as (root & Hnd & Hleaves & Henc & Hdict).
  set (self' := __huffman_code {| data := S; dictionary := ∅ |} root) in *.
  assert (Hcov : forall c, occurs c message -> is_Some (dictionary self' !! c)).
  { intros c Hc. rewrite Hdict. by apply table_is_Some, Hleaves, Hsub. }
  assert (Hnonempty : forall k c, dictionary self' !! k = Some c -> c <> EmptyString).
  { intros k c. rewrite Hdict. by apply fresh_table_nonempty. }
  eexists _, self', _, _, (code_words (dictionary self') message).
  split_and!; [by apply init_ok|exact Henc|by apply init_ok| |].
  - by rewrite encode_ok.
  - rewrite decode_huffman_ok by (by apply code_words_nonempty).
    f_equal. apply decode_code_words; [|done..].
    rewrite Hdict. by apply fresh_table_prefix_free.
Qed.

Lemma table_serves_every_message_witness :
  exists self self' encoded sender stream,
    __init__ (Some "abracadabra") = Ok self /\
    encode_huffman self = (self', Ok encoded) /\
    __init__ (Some "cab") = Ok sender /\
    __encode (set_dictionary sender (get_dictionary self')) = Ok stream /\
    decode_huffman self' (Some stream) = Ok "cab".
Proof.
  apply (table_serves_every_message "abracadabra" "cab"); try discriminate.
  intros c Hc. apply str_count_pos.
  repeat (apply occurs_cons in Hc as [->|Hc]; [vm_compute; reflexivity|]).
  by apply occurs_empty in Hc.
Defined.

(** ** The shape of the generated table *)

Section shape.
Implicit Types (t : node) (p c s : string) (k : ascii) (d : gmap ascii string).

Lemma list_of_app s s' :
  list_ascii_of_string (s +:+ s') = list_ascii_of_string s ++ list_ascii_of_string s'.
Proof. induction s as [|x s IH]; [done|]. rewrite str_app_cons. simpl. by rewrite IH. Qed.

Lemma is_bits_app s s' : is_bits (s +:+ s') <-> is_bits s /\ is_bits s'.
Proof. unfold is_bits. rewrite list_of_app. apply Forall_app. Qed.

Lemma is_bits_empty : is_bits EmptyString.
Proof. constructor. Qed.

Lemma codes_bits t p k c : is_bits p -> (k, c) ∈ codes t p -> is_bits c.
Proof.
  revert p. induction t as [w s0|w l IHl r IHr]; intros p Hp; simpl.
  - by intros [= _ ->]%list_elem_of_singleton.
  - assert (Hbit : forall x, x = "0"%char \/ x = "1"%char ->
                             is_bits (p +:+ String x EmptyString)).
    { intros x Hx. apply is_bits_app. split; [done|].
      unfold is_bits. simpl. by constructor. }
    intros [Hin|Hin]%elem_of_app.
    + apply (IHr (p +:+ "1")); [apply Hbit; by right|done].
    + apply (IHl (p +:+ "0")); [apply Hbit; by left|done].
Qed.

Lemma root_codes_bits t k c : (k, c) ∈ codes t (root_prefix t) -> is_bits c.
Proof.
  apply codes_bits. unfold root_prefix, is_bits.
  case_decide; simpl; [|constructor]. constructor; [by right|constructor].
Qed.

Lemma code_words_bits d s :
  (forall k c, d !! k = Some c -> is_bits c) -> is_bits (code_words d s).
Proof.
  intros Hd. induction s as [|x s IH]; simpl; [constructor|].
  apply is_bits_app. split; [|done].
  destruct (d !! x) as [c|] eqn:Hx; simpl; [by eapply Hd|constructor].
Qed.

Lemma leaves_nonempty t : (0 < length (leaves t))%nat.
Proof. induction t; simpl; [lia|]. rewrite length_app. lia. Qed.

(** A leaf lies no deeper than the number of leaves of its tree, less
    one. *)
Lemma codes_depth t p k c :
  (k, c) ∈ codes t p ->
  (String.length c + 1 <= String.length p + length (leaves t))%nat.
Proof.
  revert p. induction t as [w s0|w l IHl r IHr]; intros p; simpl.
  - intros [= _ ->]%list_elem_of_singleton. lia.
  - pose proof (leaves_nonempty l). pose proof (leaves_nonempty r).
    rewrite length_app.
    intros [Hin|Hin]%elem_of_app; [apply IHr in Hin|apply IHl in Hin];
      rewrite str_length_app in Hin; simpl in Hin; lia.
Qed.

Lemma root_codes_length t k c :
  (k, c) ∈ codes t (root_prefix t) ->
  1 <= len c <= Z.max 1 (Z.of_nat (length (leaves t)) - 1).
Proof.
  intros Hin. pose proof (root_codes_nonempty _ _ _ Hin) as Hne.
  pose proof (codes_depth _ _ _ _ Hin) as Hdepth.
  assert (1 <= len c).
  { unfold len. destruct c; [done|]. simpl. lia. }
  split; [done|]. unfold len. unfold root_prefix in Hdepth. clear Hin.
  remember (length (leaves t)) as n.
  destruct t as [w s0|w l r]; simpl tuple_len in Hdepth;
    case_decide; try done; simpl in *; lia.
Qed.

Lemma len_code_words_bounds d s (lo hi : Z) :
  (forall x, occurs x s -> exists c, d !! x = Some c /\ lo <= len c <= hi) ->
  len s * lo <= len (code_words d s) <= len s * hi.
Proof.
  induction s as [|x s IH]; intros Hb; simpl.
  - unfold len. simpl. lia.
  - destruct (Hb x) as (c & Hx & Hc); [apply occurs_cons; by left|].
    rewrite Hx. simpl. rewrite len_app.
    assert (len (String x s) = 1 + len s) as -> by (unfold len; simpl; lia).
    assert (len s * lo <= len (code_words d s) <= len s * hi).
    { apply IH. intros y Hy. apply Hb, occurs_cons. by right. }
    lia.
Qed.

Lemma symbols_count (S : string) l :
  NoDup l -> (forall k, k ∈ l <-> occurs k S) ->
  length l = length (distinct_symbols S).
Proof.
  intros Hnd Hl. apply Permutation_length, NoDup_Permutation; [done| |].
  - apply NoDup_remove_dups.
  - intros k. unfold distinct_symbols. by rewrite elem_of_remove_dups, Hl.
Qed.
End shape.

(** X11 (what the table holds): on a fresh instance the generated table
    has an entry for exactly the symbols of the data; every code word is
    a non-empty string of the characters [0] and [1], and so is the
    returned stream. *)
Theorem generated_table_entries (S : string) :
  S <> EmptyString ->
  exists self self' encoded,
    __init__ (Some S) = Ok self /\
    encode_huffman self = (self', Ok encoded) /\
    (forall k, is_Some (get_dictionary self' !! k) <-> occurs k S) /\
    (forall k c, get_dictionary self' !! k = Some c ->
                 c <> EmptyString /\ is_bits c) /\
    encoded <> EmptyString /\ is_bits encoded.
Proof.
  intros HS.
  destruct (fresh_encode S HS) as (root & Hnd & Hleaves & Henc & Hdict).
  eexists _, _, _. split_and!; [by apply init_ok|exact Henc|..];
    unfold get_dictionary; rewrite Hdict.
  - intros k. rewrite <- Hleaves. split; [|apply table_is_Some].
    intros [c Hc]. apply fresh_table_lookup in Hc; [|done].
    rewrite <- (codes_fst root (root_prefix root)).
    apply list_elem_of_fmap. by exists (k, c).
  - intros k c Hc. apply fresh_table_lookup in Hc; [|done].
    split; [by eapply root_codes_nonempty|by eapply root_codes_bits].
  - apply code_words_nonempty; [| |done].
    + intros k c. by apply fresh_table_nonempty.
    + intros c Hc. by apply table_is_Some, Hleaves.
  - apply code_words_bits. intros k c Hc.
    apply fresh_table_lookup in Hc; [|done]. by eapply root_codes_bits.
Qed.

Lemma generated_table_entries_witness :
  exists self self' encoded,
    __init__ (Some "abracadabra") = Ok self /\
    encode_huffman self = (self', Ok encoded) /\
    (forall k, is_Some (get_dictionary self' !! k) <-> occurs k "abracadabra") /\
    (forall k c, get_dictionary self' !! k = Some c ->
                 c <> EmptyString /\ is_bits c) /\
    encoded <> EmptyString /\ is_bits encoded.
Proof. apply (generated_table_entries "abracadabra"). discriminate. Defined.

(** X12 (bounds on the length): every symbol costs at least one bit and
    at most as many bits as there are distinct symbols, less one (one
    bit when there is a single symbol): the stream is at least as long as
    the data and at most that many times longer. *)
Theorem encoded_length_bounds (S : string) :
  S <> EmptyString ->
  exists self self' encoded,
    __init__ (Some S) = Ok self /\
    encode_huffman self = (self', Ok encoded) /\
    (forall k c, get_dictionary self' !! k = Some c ->
       1 <= len c <= Z.max 1 (Z.of_nat (length (distinct_symbols S)) - 1)) /\
    len S <= len encoded /\
    len encoded <= len S * Z.max 1 (Z.of_nat (length (distinct_symbols S)) - 1).
Proof.
  intros HS.
  destruct (fresh_encode S HS) as (root & Hnd & Hleaves & Henc & Hdict).
  assert (Hcode : forall k c,
    dictionary (__huffman_code {| data := S; dictionary := ∅ |} root) !! k = Some c ->
    1 <= len c <= Z.max 1 (Z.of_nat (length (distinct_symbols S)) - 1)).
  { intros k c Hc. rewrite Hdict in Hc. apply fresh_table_lookup in Hc; [|done].
    rewrite <- (symbols_count S (leaves root)) by done.
    by eapply root_codes_length. }
  assert (Hbounds : forall x, occurs x S -> exists c,
    dictionary (__huffman_code {| data := S; dictionary := ∅ |} root) !! x = Some c /\
    1 <= len c <= Z.max 1 (Z.of_nat (length (distinct_symbols S)) - 1)).
  { intros x Hx. rewrite Hdict.
    apply Hleaves, (table_is_Some ∅ root) in Hx as [c Hc]. exists c.
    split; [done|]. apply (Hcode x). by rewrite Hdict. }
  apply len_code_words_bounds in Hbounds.
  eexists _, _, _. split_and!; [by apply init_ok|exact Henc|exact Hcode|lia|lia].
Qed.

Lemma encoded_length_bounds_witness :
  exists self self' encoded,
    __init__ (Some "abracadabra") = Ok self /\
    encode_huffman self = (self', Ok encoded) /\
    (forall k c, get_dictionary self' !! k = Some c ->
       1 <= len c <= Z.max 1 (Z.of_nat (length (distinct_symbols "abracadabra")) - 1)) /\
    len "abracadabra" <= len encoded /\
    len encoded <=
      len "abracadabra" * Z.max 1 (Z.of_nat (length (distinct_symbols "abracadabra")) - 1).
Proof. apply (encoded_length_bounds "abracadabra"). discriminate. Defined.

(** ** The weights of the tree *)

Section weights.
Implicit Types (t : node) (h : list node).

Lemma sum_weights_app (l l' : list Z) :
  sum_weights (l ++ l') = sum_weights l + sum_weights l'.
Proof. induction l as [|x l IH]; simpl; [done|]. rewrite IH. lia. Qed.

Lemma sum_weights_perm (l l' : list Z) : l ≡ₚ l' -> sum_weights l = sum_weights l'.
Proof. induction 1; simpl; lia. Qed.

(** In a well-weighted tree the weight at the root is the sum of the
    weights at the leaves. *)
Lemma item0_sum t : well_weighted t -> item0 t = sum_weights (leaf_items t).*1.
Proof.
  induction t as [w s|w l IHl r IHr]; simpl; [lia|].
  intros (-> & Hl & Hr). rewrite fmap_app, sum_weights_app, IHl, IHr; done.
Qed.

(** The loop of [__huffman_tree] keeps the leaves with their weights and
    builds only well-weighted nodes. *)
Lemma merge_loop_items h :
  h <> [] ->
  exists root,
    merge_loop h = Ok [root] /\
    leaf_items root ≡ₚ forest_items h /\
    (Forall well_weighted h -> well_weighted root).
Proof.
  funelim (merge_loop h); intros Hne.
  - destruct frequency as [|root [|? ?]]; simpl in *; [done| |lia].
    exists root. split_and!; [done| |by inversion 1].
    unfold forest_items. simpl. by rewrite app_nil_r.
  - destruct frequency as [|a [|b rest]]; simpl in *; [lia..|].
    injection Hround as <-.
    set (parentnode := Internal (item0 a + item0 b) a b) in *.
    pose proof (heappush_perm rest parentnode) as Hperm.
    match goal with IH : _ -> exists _, _ |- _ =>
      destruct IH as (root & Hloop & Hitems & Hroot) end.
    { intros Hnil. rewrite Hnil in Hperm. by apply Permutation_nil_cons in Hperm. }
    exists root. split_and!; [done| |].
    + rewrite Hitems. unfold forest_items. rewrite Hperm. simpl.
      by rewrite <- app_assoc.
    + intros Hww. apply Forall_cons in Hww as [Ha Hww].
      apply Forall_cons in Hww as [Hb Hww].
      apply Hroot. rewrite Hperm. by constructor.
  - destruct frequency as [|a [|b rest]]; simpl in *; [lia..|done].
Qed.

Lemma huffman_tree_items (frequency : list node) :
  frequency <> [] ->
  exists root,
    __huffman_tree frequency = Ok root /\
    leaf_items root ≡ₚ forest_items frequency /\
    (Forall well_weighted frequency -> well_weighted root).
Proof.
  intros Hne. unfold __huffman_tree.
  case_decide as Hlen; [by destruct frequency|].
  pose proof (heapify_perm frequency) as Hperm.
  destruct (merge_loop_items (heapify frequency)) as (root & -> & Hitems & Hroot).
  { intros Hnil. rewrite Hnil in Hperm. by apply Permutation_nil in Hperm. }
  exists root. split_and!; [done| |].
  - rewrite Hitems. unfold forest_items. by rewrite Hperm.
  - intros Hww. apply Hroot. by rewrite Hperm.
Qed.

Lemma create_frequency_items self :
  forest_items (__create_frequency self)
  = (fun kv => (kv.2, kv.1)) <$> map_to_list (Counter (data self)).
Proof.
  unfold __create_frequency, forest_items.
  induction (map_to_list (Counter (data self))) as [|[k v] l IH]; simpl; [done|].
  by f_equal.
Qed.

Lemma create_frequency_item self (w : Z) (k : ascii) :
  (w, k) ∈ forest_items (__create_frequency self) <->
  occurs k (data self) /\ w = str_count k (data self).
Proof.
  rewrite create_frequency_items, list_elem_of_fmap. split.
  - intros [[k' v] [[= -> ->] Hin]]. apply elem_of_map_to_list in Hin.
    rewrite Counter_lookup in Hin. case_decide as Hz; [done|].
    injection Hin as <-. split; [|done].
    apply str_count_pos. pose proof (str_count_nonneg k' (data self)). lia.
  - intros [Hk ->]. exists (k, str_count k (data self)). split; [done|].
    apply elem_of_map_to_list. rewrite Counter_lookup.
    apply str_count_pos in Hk. case_decide; [lia|done].
Qed.

Lemma len_sum_ones (s : string) :
  len s = sum_over (fun _ => 1) (list_ascii_of_string s).
Proof. unfold len. induction s as [|x s IH]; simpl; lia. Qed.

Lemma sum_weights_items (l : list (ascii * Z)) (g : ascii -> Z) :
  (forall k v, (k, v) ∈ l -> v = g k) ->
  sum_weights ((fun kv : ascii * Z => (kv.2, kv.1)) <$> l).*1 = sum_over g l.*1.
Proof.
  unfold sum_weights, sum_over.
  induction l as [|[k v] l IH]; intros Hl; simpl; [done|].
  rewrite (Hl k v) by (by left). f_equal.
  apply IH. intros k' v' ?. apply Hl. by right.
Qed.

(** The occurrence counts of the distinct symbols add up to the length
    of the data. *)
Lemma create_frequency_total self :
  sum_weights (forest_items (__create_frequency self)).*1 = len (data self).
Proof.
  rewrite len_sum_ones.
  rewrite (sum_over_regroup _ _ (map_to_list (Counter (data self))).*1).
  - rewrite create_frequency_items. apply sum_weights_items.
    intros k v Hin%elem_of_map_to_list. rewrite Counter_lookup in Hin.
    case_decide; [done|]. injection Hin as <-. lia.
  - apply NoDup_fst_map_to_list.
  - intros c Hc. apply Counter_is_Some in Hc as [v Hv].
    apply list_elem_of_fmap. exists (c, v). split; [done|].
    by apply elem_of_map_to_list.
Qed.

Lemma create_frequency_well_weighted self :
  Forall well_weighted (__create_frequency self).
Proof.
  unfold __create_frequency. apply Forall_fmap, Forall_forall. by intros [k v] _.
Qed.
End weights.

(** X13 (the frequency list): [__create_frequency] lists one leaf for
    every symbol that occurs in the data, weighted with the number of
    its occurrences, and nothing else; no symbol is listed twice, and
    the weights add up to the length of the data. *)
Theorem frequency_list (self : Huffman) :
  (forall t, t ∈ __create_frequency self <->
     exists k, occurs k (data self) /\ t = Leaf (str_count k (data self)) k) /\
  NoDup (forest_leaves (__create_frequency self)) /\
  sum_weights (item0 <$> __create_frequency self) = len (data self).
Proof.
  split_and!.
  - intros t. unfold __create_frequency. rewrite list_elem_of_fmap. split.
    + intros [[k v] [-> Hin]]. apply elem_of_map_to_list in Hin. simpl.
      exists k. rewrite Counter_lookup in Hin. case_decide as Hz; [done|].
      injection Hin as <-. split; [|done].
      apply str_count_pos. pose proof (str_count_nonneg k (data self)). lia.
    + intros (k & Hk & ->). exists (k, str_count k (data self)). split; [done|].
      apply elem_of_map_to_list. rewrite Counter_lookup.
      apply str_count_pos in Hk. case_decide; [lia|done].
  - apply create_frequency_NoDup.
  - rewrite <- create_frequency_total. f_equal.
    rewrite create_frequency_items. unfold __create_frequency.
    rewrite <- !list_fmap_compose. by apply list_fmap_ext.
Qed.

(** X14 (the weights of the tree): for non-empty data, [__huffman_tree]
    returns a tree in which every inner node weighs as much as its two
    children together, whose leaves are the symbols of the data with
    their numbers of occurrences, and whose root weighs as much as the
    data is long. *)
Theorem tree_weights (self : Huffman) :
  data self <> EmptyString ->
  exists root,
    __huffman_tree (__create_frequency self) = Ok root /\
    well_weighted root /\
    (forall w k, (w, k) ∈ leaf_items root <->
                 occurs k (data self) /\ w = str_count k (data self)) /\
    item0 root = len (data self).
Proof.
  intros Hne.
  destruct (huffman_tree_items (__create_frequency self))
    as (root & Htree & Hitems & Hroot).
  { by apply create_frequency_nonempty. }
  specialize (Hroot (create_frequency_well_weighted self)).
  exists root. split_and!; [done|done| |].
  - intros w k. rewrite Hitems. apply create_frequency_item.
  - rewrite item0_sum by done. rewrite <- create_frequency_total.
    apply sum_weights_perm. by rewrite Hitems.
Qed.

Lemma tree_weights_witness :
  exists root,
    __huffman_tree (__create_frequency {| data := "abracadabra"; dictionary := ∅ |})
      = Ok root /\
    well_weighted root /\
    (forall w k, (w, k) ∈ leaf_items root <->
                 occurs k "abracadabra" /\ w = str_count k "abracadabra") /\
    item0 root = len "abracadabra".
Proof.
  apply (tree_weights {| data := "abracadabra"; dictionary := ∅ |}). discriminate.
Defined.

(** X15 (the tree and the order of the list): [__huffman_tree] raises on
    an empty list and on no other; on a non-empty list it returns a tree
    that keeps the leaves of the listed nodes, and the result is the
    same for every order in which the list names its nodes. *)
Theorem huffman_tree_of_list (frequency frequency' : list node) :
  frequency ≡ₚ frequency' ->
  __huffman_tree frequency = __huffman_tree frequency' /\
  (frequency = [] ->
   __huffman_tree frequency = Raise (Exception "Invalid frequency table.")) /\
  (frequency <> [] ->
   exists root, __huffman_tree frequency = Ok root /\
                leaf_items root ≡ₚ forest_items frequency').
Proof.
  intros Hperm. split_and!.
  - unfold __huffman_tree.
    rewrite (heapify_order_independent frequency frequency' Hperm).
    by rewrite (Permutation_length Hperm).
  - by intros ->.
  - intros Hne.
    destruct (huffman_tree_items frequency Hne) as (root & Htree & Hitems & _).
    exists root. split; [done|]. rewrite Hitems. unfold forest_items.
    by rewrite Hperm.
Qed.

Lemma huffman_tree_of_list_witness :
  __huffman_tree [Leaf 1 "a"; Leaf 2 "b"; Leaf 3 "c"]
    = __huffman_tree [Leaf 2 "b"; Leaf 1 "a"; Leaf 3 "c"] /\
  ([Leaf 1 "a"; Leaf 2 "b"; Leaf 3 "c"] = [] ->
   __huffman_tree [Leaf 1 "a"; Leaf 2 "b"; Leaf 3 "c"]
     = Raise (Exception "Invalid frequency table.")) /\
  ([Leaf 1 "a"; Leaf 2 "b"; Leaf 3 "c"] <> [] ->
   exists root, __huffman_tree [Leaf 1 "a"; Leaf 2 "b"; Leaf 3 "c"] = Ok root /\
                leaf_items root ≡ₚ forest_items [Leaf 2 "b"; Leaf 1 "a"; Leaf 3 "c"]).
Proof. apply huffman_tree_of_list. apply perm_swap. Defined.

(** ** The decoder on arbitrary bit strings *)

Section paths.
Implicit Types (t : node) (p q c : string) (k : ascii).

Lemma descend_app t p q :
  descend t (p +:+ q) = descend t p ≫= fun t' => descend t' q.
Proof.
  revert t. induction p as [|x p IH]; intros t; [done|].
  rewrite str_app_cons. destruct t as [|w l r]; simpl; [done|].
  repeat case_decide; auto.
Qed.

(** A path that ends at a leaf is the code word of that leaf. *)
Lemma descend_leaf_code t p q w k :
  descend t q = Some (Leaf w k) -> (k, p +:+ q) ∈ codes t p.
Proof.
  revert t p. induction q as [|x q IH]; intros t p; simpl.
  - intros [= ->]. rewrite str_app_empty_r. simpl. by left.
  - destruct t as [|w' l r]; [done|]. simpl.
    change (String x q) with (String x EmptyString +:+ q).
    rewrite <- str_app_assoc. rewrite elem_of_app.
    repeat case_decide; subst; try done; intros Hq; [right|left]; by apply IH.
Qed.

(** A code word is a path that ends at the leaf of its symbol. *)
Lemma code_descend_leaf t p k c :
  (k, c) ∈ codes t p -> exists q w, c = p +:+ q /\ descend t q = Some (Leaf w k).
Proof.
  revert p. induction t as [w s|w l IHl r IHr]; intros p; simpl.
  - intros [= -> ->]%list_elem_of_singleton. exists EmptyString, w.
    by rewrite str_app_empty_r.
  - intros [Hin|Hin]%elem_of_app.
    + apply IHr in Hin as (q & w' & -> & Hq). exists (String "1" q), w'.
      by rewrite str_app_assoc.
    + apply IHl in Hin as (q & w' & -> & Hq). exists (String "0" q), w'.
      by rewrite str_app_assoc.
Qed.

(** The code words below a node of the tree are code words of the
    tree. *)
Lemma descend_codes t p q t' k c :
  descend t q = Some t' -> (k, c) ∈ codes t' (p +:+ q) -> (k, c) ∈ codes t p.
Proof.
  revert t p. induction q as [|x q IH]; intros t p; simpl.
  - intros [= ->]. by rewrite str_app_empty_r.
  - destruct t as [|w l r]; [done|]. simpl.
    change (String x q) with (String x EmptyString +:+ q).
    rewrite <- str_app_assoc. rewrite elem_of_app.
    repeat case_decide; subst; try done; intros Hq Hin; [right|left];
      by eapply IH.
Qed.

Lemma codes_nonempty_list t p : codes t p <> [].
Proof.
  revert p. induction t as [w s|w l IHl r IHr]; intros p; simpl; [done|].
  intros [Hr _]%app_eq_nil. by eapply IHr.
Qed.

Section stall.
Variable root : node.
Variable d : gmap ascii string.
Variable rd : gmap string ascii.
Hypothesis d_table : forall k c, d !! k = Some c <-> (k, c) ∈ codes root EmptyString.
Hypothesis rd_sound : forall p k, rd !! p = Some k -> d !! k = Some p.
Hypothesis rd_complete : forall p k, d !! k = Some p -> is_Some (rd !! p).

(** While the buffer is the path to an inner node, it stays one. *)
Lemma decode_loop_inner (e b out : string) :
  is_bits e ->
  (exists w l r, descend root b = Some (Internal w l r)) ->
  (exists w l r, descend root EmptyString = Some (Internal w l r)) ->
  exists w l r,
    descend root (decode_loop rd e b out).1 = Some (Internal w l r).
Proof.
  intros He Hb Hroot. revert b out Hb.
  induction e as [|x e IH]; intros b out Hb; simpl; [done|].
  apply Forall_cons in He as [Hx He].
  destruct Hb as (w & l & r & Hb).
  assert (Hstep : descend root (b +:+ String x EmptyString)
                  = Some (if decide (x = "0"%char) then l else r)).
  { rewrite descend_app, Hb. simpl. destruct Hx as [->| ->]; by repeat case_decide. }
  destruct (rd !! (b +:+ String x EmptyString)) as [k|] eqn:Hrd.
  - by apply IH.
  - apply IH; [done|].
    destruct (if decide (x = "0"%char) then l else r) as [w' k|w' l' r'] eqn:Hchild;
      [|by eauto].
    exfalso. apply (descend_leaf_code _ EmptyString) in Hstep.
    rewrite str_app_empty_l in Hstep. apply d_table, rd_complete in Hstep.
    rewrite Hrd in Hstep. by destruct Hstep.
Qed.
End stall.
End paths.

(** X16 (the decoder never stalls): when the data has at least two
    distinct symbols, [decode_huffman] with the generated table leaves,
    after any string of the characters [0] and [1], only a proper prefix
    of a code word unmatched, and every such string can be completed to
    one that is read without a remainder: with the missing bits of that
    code word appended, the buffer ends empty and the call returns the
    symbols decoded before, followed by the symbol of the code word. *)
Theorem decoder_never_stalls (S e : string) :
  S <> EmptyString ->
  (2 <= length (distinct_symbols S))%nat ->
  is_bits e ->
  exists self self' encoded,
    __init__ (Some S) = Ok self /\
    encode_huffman self = (self', Ok encoded) /\
    exists k c rest,
      get_dictionary self' !! k = Some c /\
      c = unmatched self' e +:+ rest /\ rest <> EmptyString /\
      is_bits rest /\
      unmatched self' (e +:+ rest) = EmptyString /\
      decode_huffman self' (Some (e +:+ rest))
        = Ok (decoded self' e +:+ String k EmptyString).
Proof.
  intros HS Htwo He.
  destruct (fresh_encode S HS) as (root & Hnd & Hleaves & Henc & Hdict).
  set (self' := __huffman_code {| data := S; dictionary := ∅ |} root) in *.
  rewrite <- (symbols_count S (leaves root)) in Htwo by done.
  assert (Hpf : prefix_free (dictionary self')).
  { rewrite Hdict. by apply fresh_table_prefix_free. }
  assert (Hbits : forall k c, dictionary self' !! k = Some c -> is_bits c).
  { intros k c Hc. rewrite Hdict in Hc. apply fresh_table_lookup in Hc; [|done].
    by eapply root_codes_bits. }
  destruct root as [w s|w l r]; [simpl in Htwo; lia|].
  change (root_prefix (Internal w l r)) with EmptyString in Hdict.
  eexists _, self', _. split_and!; [by apply init_ok|exact Henc|].
  assert (Htable : forall k c,
    dictionary self' !! k = Some c <-> (k, c) ∈ codes (Internal w l r) EmptyString).
  { intros k c. rewrite Hdict. by apply fresh_table_lookup. }
  destruct (decode_loop_inner (Internal w l r) (dictionary self')
              (get_reversed_dictionary self') Htable
              (reversed_complete self') e EmptyString EmptyString He)
    as (w' & l' & r' & Hinner); [by eauto|by eauto|].
  fold (unmatched self' e) in Hinner.
  destruct (codes l' ((unmatched self' e) +:+ "0")) as [|[k c] ?] eqn:Hcodes;
    [by apply codes_nonempty_list in Hcodes|].
  assert (Hin : (k, c) ∈ codes (Internal w' l' r') (EmptyString +:+ unmatched self' e)).
  { simpl. apply elem_of_app. right. rewrite str_app_empty_l, Hcodes. by left. }
  pose proof (codes_prefix _ _ _ _ Hin) as [rest Hrest].
  pose proof (codes_longer _ _ _ _ _ _ Hin) as Hlen.
  apply (descend_codes _ _ _ _ _ _ Hinner) in Hin.
  rewrite str_app_empty_l in Hrest.
  assert (Hk : dictionary self' !! k = Some c) by (by apply Htable).
  assert (Hne : rest <> EmptyString).
  { intros ->. rewrite Hrest, str_app_empty_l, str_app_empty_r in Hlen. lia. }
  assert (Hread : decode_loop (get_reversed_dictionary self') (e +:+ rest)
                    EmptyString EmptyString
                  = (EmptyString, decoded self' e +:+ String k EmptyString)).
  { rewrite decode_loop_app. fold (unmatched self' e) (decoded self' e).
    rewrite <- (str_app_empty_r rest).
    rewrite (decode_word (dictionary self') (get_reversed_dictionary self')
               (reversed_sound self') (reversed_complete self') Hpf k c rest Hk Hne);
      [done|by rewrite Hrest]. }
  exists k, c, rest. split_and!; [done|done|done| | |].
  - apply Hbits in Hk. rewrite Hrest in Hk. by apply is_bits_app in Hk as [_ ?].
  - unfold unmatched at 1. by rewrite Hread.
  - rewrite decode_huffman_ok by (by intros [_ ?]%str_app_eq_empty).
    unfold decoded at 1. by rewrite Hread.
Qed.

Lemma decoder_never_stalls_witness :
  exists self self' encoded,
    __init__ (Some "abracadabra") = Ok self /\
    encode_huffman self = (self', Ok encoded) /\
    exists k c rest,
      get_dictionary self' !! k = Some c /\
      c = unmatched self' "0110" +:+ rest /\ rest <> EmptyString /\
      is_bits rest /\
      unmatched self' ("0110" +:+ rest) = EmptyString /\
      decode_huffman self' (Some ("0110" +:+ rest))
        = Ok (decoded self' "0110" +:+ String k EmptyString).
Proof.
  apply (decoder_never_stalls "abracadabra" "0110").
  - discriminate.
  - vm_compute. lia.
  - unfold is_bits. simpl.
    repeat (constructor; [first [by left | by right]|]). constructor.
Defined.

(** X17 (code words are paths): on a tree with an inner node at the
    root and no symbol at two leaves, [__huffman_code] gives every
    symbol of the tree the path from the root to its leaf as code word,
    with [0] for a step to the left and [1] for a step to the right. *)
Theorem code_word_is_path (self : Huffman) (tree : node) (k : ascii) (c : string) :
  NoDup (leaves tree) ->
  tuple_len tree = 3 ->
  k ∈ leaves tree ->
  get_dictionary (__huffman_code self tree) !! k = Some c <->
  exists w, descend tree c = Some (Leaf w k).
Proof.
  intros Hnd Hlen Hk. unfold get_dictionary. rewrite huffman_code_dictionary.
  assert (Hprefix : root_prefix tree = EmptyString).
  { unfold root_prefix. case_decide; [lia|done]. }
  rewrite Hprefix. split.
  - intros Hc.
    rewrite <- (codes_fst tree EmptyString) in Hk.
    apply elem_of_fst_codes in Hk as [c' Hc'].
    rewrite (assign_all_elem _ _ k c') in Hc by (by rewrite ?codes_fst).
    injection Hc as ->.
    apply code_descend_leaf in Hc' as (q & w & -> & Hq). by exists w.
  - intros [w Hw]. apply (descend_leaf_code _ EmptyString) in Hw.
    apply assign_all_elem; [by rewrite codes_fst|done].
Qed.

Lemma code_word_is_path_witness :
  get_dictionary
    (__huffman_code {| data := "abb"; dictionary := ∅ |}
                    (Internal 3 (Leaf 1 "a") (Leaf 2 "b"))) !! "b"%char = Some "1"
  <-> exists w, descend (Internal 3 (Leaf 1 "a") (Leaf 2 "b")) "1"
                = Some (Leaf w "b").
Proof.
  apply code_word_is_path.
  - simpl. apply NoDup_cons. split; [|apply NoDup_singleton].
    intros [=]%list_elem_of_singleton.
  - reflexivity.
  - simpl. by left.
Defined.

(** ** The decoder with the table of a single symbol *)

Lemma reversed_single (self : Huffman) (c : ascii) :
  dictionary self = {[ c := "1" ]} ->
  get_reversed_dictionary self = {[ "1" := c ]}.
Proof.
  intros Hd. unfold get_reversed_dictionary, get_dictionary.
  rewrite Hd, map_to_list_singleton. simpl. apply insert_empty.
Qed.

Lemma decode_loop_ones (c : ascii) (i : nat) (e out : string) :
  decode_loop {[ "1" := c ]} (repeat_char "1" i +:+ e) EmptyString out
  = decode_loop {[ "1" := c ]} e EmptyString (out +:+ repeat_char c i).
Proof.
  revert out. induction i as [|i IH]; intros out; simpl.
  - by rewrite str_app_empty_l, str_app_empty_r.
  - rewrite str_app_empty_l, lookup_singleton_eq, IH.
    by rewrite str_app_assoc.
Qed.

(** Once the buffer starts with another character than [1], nothing
    matches any more. *)
Lemma decode_loop_stalled (c x : ascii) (b e out : string) :
  x <> "1"%char ->
  decode_loop {[ "1" := c ]} e (String x b) out = (String x b +:+ e, out).
Proof.
  intros Hx. revert b. induction e as [|y e IH]; intros b; simpl.
  - by rewrite str_app_empty_r.
  - rewrite str_app_cons, lookup_singleton_ne by congruence.
    rewrite IH. by rewrite !str_app_cons, str_app_assoc.
Qed.

(** X18 (one symbol: a stray character ends the decoding): with the
    table generated for data of a single symbol, [decode_huffman] returns
    one symbol for every leading [1] of the stream; from the first other
    character on, nothing is decoded any more, however many [1] follow,
    and the rest of the stream stays in the buffer. *)
Theorem single_symbol_decode_stops (c x : ascii) (n i : nat) (rest : string) :
  (1 <= n)%nat ->
  x <> "1"%char ->
  exists self self' encoded,
    __init__ (Some (repeat_char c n)) = Ok self /\
    encode_huffman self = (self', Ok encoded) /\
    decode_huffman self' (Some (repeat_char "1" i +:+ String x rest))
      = Ok (repeat_char c i) /\
    unmatched self' (repeat_char "1" i +:+ String x rest) = String x rest.
Proof.
  intros Hn Hx. eexists _, _, _. split_and!.
  - apply init_ok. destruct n; [lia|done].
  - by apply single_symbol_encode.
  - rewrite decode_huffman_ok.
    + unfold decoded. rewrite (reversed_single _ c) by done.
      rewrite decode_loop_ones. simpl.
      rewrite str_app_empty_l, lookup_singleton_ne by congruence.
      by rewrite decode_loop_stalled.
    + destruct i; [done|]. simpl. by rewrite str_app_cons.
  - unfold unmatched. rewrite (reversed_single _ c) by done.
    rewrite decode_loop_ones. simpl.
    rewrite str_app_empty_l, lookup_singleton_ne by congruence.
    by rewrite decode_loop_stalled.
Qed.

Lemma single_symbol_decode_stops_witness :
  exists self self' encoded,
    __init__ (Some (repeat_char "a" 26)) = Ok self /\
    encode_huffman self = (self', Ok encoded) /\
    decode_huffman self' (Some (repeat_char "1" 2 +:+ String "0" "111"))
      = Ok (repeat_char "a" 2) /\
    unmatched self' (repeat_char "1" 2 +:+ String "0" "111") = String "0" "111".
Proof.
  apply (single_symbol_decode_stops "a" "0" 26 2 "111"); [lia|discriminate].
Defined.
